(** * gohome weather service: alerting engine and daily digest

  A shallow embedding of [services/weather/main.go].  The service keeps
  four package-level [float64] variables, reacts to rain, temperature
  and wind events, and once a day tweets a digest built from two
  graphite queries.

  Numbers are IEEE-754 binary64 values (Go's [float64]), taken from the
  standard library's [SpecFloat], behind a small number interface.  The
  rounding of the smoothing filter is measured against the rational
  numbers that the binary64 values denote.

  The collaborators outside the file are kept at their interface: the
  configuration and its device lookup are a record, a graphite query
  answers with a list of series or an error, the alerts passed to
  [services.SendAlert] are collected in order, and the events and ticks
  that [Run] selects on arrive as a list.  Log lines are not modelled.
  Field values are the scalar kinds [float64], [string] and [bool]; a
  missing key and a nil value behave alike and are both a failed lookup. *)

From Stdlib Require Import ZArith QArith Qabs Qround Qpower Qminmax Lia Lqa Ascii String List.
From Stdlib Require Import Floats.SpecFloat Numbers.DecimalString.
From stdpp Require Import base option list strings gmap.

Local Open Scope Z_scope.

(** ** Go run-time outcomes: a value or a panic *)

Module Go.

Inductive go (A : Type) : Type :=
| Ret (a : A)
| Panic (msg : string).
Arguments Ret {A} a.
Arguments Panic {A} msg.

Definition bind {A B} (m : go A) (k : A → go B) : go B :=
  match m with
  | Ret a => k a
  | Panic msg => Panic msg
  end.

#[global] Instance go_ret : MRet go := @Ret.
#[global] Instance go_bind : MBind go := fun A B k m => bind m k.

End Go.
Import Go.

(** ** The number interface

  [f_eqb], [f_ltb] and [f_leb] are Go's [==], [<] and [<=]; the source's
  [a != b] is [negb (f_eqb a b)], [a > b] is [f_ltb b a] and [a >= b] is
  [f_leb b a].  [f_fmt p] is [fmt]'s verb [%.pf]. *)

Class Number (F : Type) := {
  f_of_Z : Z → F;
  f_add : F → F → F;
  f_mul : F → F → F;
  f_div : F → F → F;
  f_eqb : F → F → bool;
  f_ltb : F → F → bool;
  f_leb : F → F → bool;
  f_fmt : nat → F → string;
}.

(** ** Fixed-point rendering of numbers, as [strconv] does for [%.pf] *)

Module Fmt.

Definition dec_of_N (n : N) : string := NilZero.string_of_uint (N.to_uint n).

(** Nearest integer to [a / b] for [0 <= a], [0 < b]; ties go to even. *)
Definition round_half_even (a b : Z) : Z :=
  let q := a / b in
  let r := a mod b in
  match (2 * r ?= b) with
  | Lt => q
  | Gt => q + 1
  | Eq => if Z.even q then q else q + 1
  end.

Fixpoint zeros (n : nat) : string :=
  match n with
  | O => EmptyString
  | S k => String "0"%char (zeros k)
  end.

(** [digits] of the scaled integer, split [p] places from the right. *)
Definition place_point (p : nat) (digits : string) : string :=
  let padded := zeros (S p - String.length digits) +:+ digits in
  let n := String.length padded in
  match p with
  | O => padded
  | _ => substring 0 (n - p) padded +:+ "." +:+ substring (n - p) p padded
  end.

(** [neg] is the sign bit; [a / b] the magnitude. *)
Definition fixed (p : nat) (neg : bool) (a b : Z) : string :=
  let scaled := round_half_even (a * 10 ^ Z.of_nat p) b in
  (if neg then "-" else EmptyString) +:+ place_point p (dec_of_N (Z.to_N scaled)).

(** Shape of a rendering with exactly one digit after the point. *)
Definition is_digit (c : ascii) : bool :=
  let n := nat_of_ascii c in (48 <=? n)%nat && (n <=? 57)%nat.

Fixpoint all_digits (s : string) : bool :=
  match s with
  | EmptyString => true
  | String c rest => is_digit c && all_digits rest
  end.

Definition one_decimal (s : string) : Prop :=
  ∃ (neg : bool) (whole : string) (d : ascii),
    s = (if neg then "-" else EmptyString) +:+ whole +:+ "." +:+ String d EmptyString
    ∧ whole ≠ EmptyString ∧ all_digits whole = true ∧ is_digit d = true.

End Fmt.

(** ** IEEE-754 binary64 *)

Module IEEE.

Definition prec : Z := 53.
Definition emax : Z := 1024.

Definition float64 : Type := spec_float.

Definition is_float64 (x : float64) : bool := valid_binary prec emax x.

Definition of_Z (z : Z) : float64 := binary_normalize prec emax z 0 false.

Definition fmt_f (p : nat) (x : float64) : string :=
  match x with
  | S754_nan => "NaN"
  | S754_infinity s => if s then "-Inf" else "+Inf"
  | S754_zero s => Fmt.fixed p s 0 1
  | S754_finite s m e =>
      match e with
      | Zneg k => Fmt.fixed p s (Zpos m) (2 ^ Zpos k)
      | _ => Fmt.fixed p s (Zpos m * 2 ^ e) 1
      end
  end.

#[global] Instance number : Number float64 | 0 := {
  f_of_Z := of_Z;
  f_add := SFadd prec emax;
  f_mul := SFmul prec emax;
  f_div := SFdiv prec emax;
  f_eqb := SFeqb;
  f_ltb := SFltb;
  f_leb := SFleb;
  f_fmt := fmt_f;
}.

(** Neither NaN nor an infinity. *)
Definition is_number (x : float64) : bool :=
  match x with
  | S754_nan | S754_infinity _ => false
  | _ => true
  end.

Definition NaN : float64 := S754_nan.
Definition pos_inf : float64 := S754_infinity false.

(** What [%.1f] shows for [x]: a finite value as an optional minus sign,
    digits, a point and one digit; the others by name. *)
Definition shown_1 (x : float64) (s : string) : Prop :=
  s = fmt_f 1 x
  ∧ match x with
    | S754_nan => s = "NaN"
    | S754_infinity sg => s = (if sg then "-Inf" else "+Inf")
    | _ => Fmt.one_decimal s
    end.

End IEEE.

(** ** The real numbers that binary64 values denote

  Rounding is measured against the rational number that a finite
  [float64] stands for. *)

Module Real.
Import IEEE.
Local Open Scope Q_scope.

Definition pow2 (e : Z) : Q := Qpower 2 e.

(** The value of a finite number; zero for the others. *)
Definition to_Q (x : float64) : Q :=
  match x with
  | S754_finite s m e =>
      if s then - (inject_Z (Zpos m) * pow2 e) else inject_Z (Zpos m) * pow2 e
  | _ => 0
  end.

(** Zero or a positive number below 2^1000. *)
Definition ordinary (x : float64) : bool :=
  match x with
  | S754_zero false => true
  | S754_finite false m e => (Zpos (digits2_pos m) + e <=? 1000)%Z
  | _ => false
  end.

(** Zero or a positive finite number. *)
Definition nonneg (x : float64) : Prop :=
  x = S754_zero false ∨ ∃ m e, x = S754_finite false m e.

(** Position of a fraction [t] of one unit, as a rounding location. *)
Definition located (t : Q) (l : location) : Prop :=
  match l with
  | loc_Exact => t == 0
  | loc_Inexact Lt => 0 < t ∧ t < 1#2
  | loc_Inexact Eq => t == 1#2
  | loc_Inexact Gt => (1#2) < t ∧ t < 1
  end.

(** [x] is [V] rounded: within a relative 2^-53 and an absolute 2^-1075,
    the latter for results below the normal range. *)
Definition rounds_to (V : Q) (x : float64) : Prop :=
  nonneg x
  ∧ V * (1 - pow2 (-53)) - pow2 (-1075) <= to_Q x
  ∧ to_Q x <= V * (1 + pow2 (-53)) + pow2 (-1075).

(** [x] lies between [lo] and [hi] up to a relative 2^-46 and an
    absolute 2^-1067. *)
Definition about (lo hi : Q) (x : float64) : Prop :=
  nonneg x
  ∧ lo * (1 - pow2 (-46)) - pow2 (-1067) <= to_Q x
  ∧ to_Q x <= hi * (1 + pow2 (-46)) + pow2 (-1067).

(** The constants of the filter as binary64 values: 39, 40 and 1. *)
Definition c39 : float64 := S754_finite false 5488762045857792 (-47).
Definition c40 : float64 := S754_finite false 5629499534213120 (-47).
Definition c1 : float64 := S754_finite false 4503599627370496 (-52).

(** Powers of two as numerals. *)
Definition unit_roundoff : Q := Eval vm_compute in pow2 (-53).
Definition slack46 : Q := Eval vm_compute in pow2 (-46).
Definition slack50 : Q := Eval vm_compute in pow2 (-50).
Definition slack44 : Q := Eval vm_compute in pow2 (-44).
Definition huge : Q := Eval vm_compute in pow2 1023.
Definition high10 : Q := Eval vm_compute in pow2 1010.
Definition high0 : Q := Eval vm_compute in pow2 1000.
Definition half_step : Q := Eval vm_compute in pow2 (-1075).
Definition abs73 : Q := Eval vm_compute in pow2 (-1073).
Definition abs72 : Q := Eval vm_compute in pow2 (-1072).
Definition abs67 : Q := Eval vm_compute in pow2 (-1067).
Definition abs66 : Q := Eval vm_compute in pow2 (-1066).

End Real.

(** ** The weather service *)

Declare Scope num_scope.
Delimit Scope num_scope with num.
Notation "x +~ y" := (f_add x y) (at level 50, left associativity) : num_scope.
Notation "x *~ y" := (f_mul x y) (at level 40, left associativity) : num_scope.
Notation "x /~ y" := (f_div x y) (at level 40, left associativity) : num_scope.
Notation "x ==~ y" := (f_eqb x y) (at level 69, no associativity) : num_scope.
Notation "x !=~ y" := (negb (f_eqb x y)) (at level 69, no associativity) : num_scope.
Notation "x <~ y" := (f_ltb x y) (at level 69, no associativity) : num_scope.
Notation "x >~ y" := (f_ltb y x) (at level 69, no associativity) : num_scope.
Notation "x >=~ y" := (f_leb y x) (at level 69, no associativity) : num_scope.

Module Weather.
Section Service.

Context {F : Type} `{Number F}.
Local Open Scope num_scope.

(** An integer constant of the source, converted to [float64]. *)
Definition lit (z : Z) : F := f_of_Z z.

(** The constant [2.237]: the nearest number to 2237/1000. *)
Definition lit_2_237 : F := lit 2237 /~ lit 1000.

(** *** Events: [pubsub.Event] with its [map[string]interface{}] *)

Inductive value : Type :=
| VFloat (f : F)
| VString (s : string)
| VBool (b : bool).

Record Event : Type := {
  Topic : string;
  Fields : gmap string value;
}.

(** [v.(float64)]: panics unless the dynamic type is [float64]. *)
Definition assert_float64 (v : option value) : go F :=
  match v with
  | Some (VFloat f) => Ret f
  | Some (VString _) => Panic "interface conversion: interface {} is string, not float64"
  | Some (VBool _) => Panic "interface conversion: interface {} is bool, not float64"
  | None => Panic "interface conversion: interface {} is nil, not float64"
  end.

(** [x, ok := v.(float64)]: the zero value and [false] on a mismatch. *)
Definition assert_float64_ok (v : option value) : F * bool :=
  match v with
  | Some (VFloat f) => (f, true)
  | _ => (lit 0, false)
  end.

(** *** [fmt.Sprintf] with one [%.pf] verb

    A [float64] operand is rendered in fixed point.  Any other operand
    is a bad verb: [%!f(type=value)], the value printed with [%v] under
    the same precision, which for a string keeps its first [p] runes
    (valid UTF-8 assumed: a byte 10xxxxxx continues a rune). *)

Definition is_continuation (c : ascii) : bool :=
  let n := nat_of_ascii c in (128 <=? n)%nat && (n <? 192)%nat.

Fixpoint take_runes (n : nat) (s : string) : string :=
  match s with
  | EmptyString => EmptyString
  | String c rest =>
      if is_continuation c then String c (take_runes n rest)
      else match n with
           | O => EmptyString
           | S k => String c (take_runes k rest)
           end
  end.

Definition Sprintf_f (p : nat) (arg : option value) : string :=
  match arg with
  | Some (VFloat f) => f_fmt p f
  | Some (VString s) => "%!f(string=" +:+ take_runes p s +:+ ")"
  | Some (VBool b) => "%!f(bool=" +:+ (if b then "true" else "false") +:+ ")"
  | None => "%!f(<nil>)"
  end.

(** *** Alerts handed to [services.SendAlert] *)

Record Alert : Type := {
  message : string;
  target : string;
  subtopic : string;
  interval : Z;
}.

Definition tweet (message subtopic : string) (interval : Z) : Alert :=
  {| message := message; target := "twitter"; subtopic := subtopic; interval := interval |}.

(** *** Temperature descriptions *)

Record td : Type := { temp : F; noun : string }.

Definition lowTemperatures : list td := [
  {| temp := lit (-5); noun := "a very cold" |};
  {| temp := lit (-2); noun := "a rather cold" |};
  {| temp := lit 0; noun := "a freezing" |};
  {| temp := lit 2; noun := "a frosty" |};
  {| temp := lit 5; noun := "a cold" |};
  {| temp := lit 7; noun := "a moderate" |};
  {| temp := lit 10; noun := "a pleasant" |};
  {| temp := lit 15; noun := "a hot" |};
  {| temp := lit 25; noun := "a scorching" |}
].

Definition highTemperatures : list td := [
  {| temp := lit 1; noun := "a very cold" |};
  {| temp := lit 4; noun := "a rather cold" |};
  {| temp := lit 6; noun := "a piercing" |};
  {| temp := lit 8; noun := "a chilly" |};
  {| temp := lit 11; noun := "a cool" |};
  {| temp := lit 15; noun := "a moderate" |};
  {| temp := lit 18; noun := "a reasonably warm" |};
  {| temp := lit 21; noun := "a hot" |};
  {| temp := lit 31; noun := "a scorching" |};
  {| temp := lit 36; noun := "a sweltering" |}
].

(** Lookup descriptive text for given temperate range *)
Fixpoint getTempDesc (t : F) (temps : list td) : string :=
  match temps with
  | [] => EmptyString
  | entry :: rest => if t <~ temp entry then noun entry else getTempDesc t rest
  end.

(** *** Rolling state: the package-level variables *)

Record State : Type := {
  lastRainTotal : F;
  lastOutsideTemp : F;
  lastOutsideHumd : F;
  avgWind : F;
}.

Definition initial : State :=
  {| lastRainTotal := lit 0; lastOutsideTemp := lit 0;
     lastOutsideHumd := lit 0; avgWind := lit 0 |}.

Definition set_lastRainTotal (x : F) (st : State) : State :=
  {| lastRainTotal := x; lastOutsideTemp := lastOutsideTemp st;
     lastOutsideHumd := lastOutsideHumd st; avgWind := avgWind st |}.

Definition set_lastOutsideTemp (x : F) (st : State) : State :=
  {| lastRainTotal := lastRainTotal st; lastOutsideTemp := x;
     lastOutsideHumd := lastOutsideHumd st; avgWind := avgWind st |}.

Definition set_lastOutsideHumd (x : F) (st : State) : State :=
  {| lastRainTotal := lastRainTotal st; lastOutsideTemp := lastOutsideTemp st;
     lastOutsideHumd := x; avgWind := avgWind st |}.

Definition set_avgWind (x : F) (st : State) : State :=
  {| lastRainTotal := lastRainTotal st; lastOutsideTemp := lastOutsideTemp st;
     lastOutsideHumd := lastOutsideHumd st; avgWind := x |}.

(** *** Configuration: the part of [services.Config] that is read *)

Record Config : Type := {
  LookupDeviceName : Event → string;
  Outside_Rain : string;
  Outside_Temp : string;
  Outside_Wind : string;
  Windy : F;
}.

Variable cfg : Config.

(** *** [checkEvent], one case at a time *)

Definition rainAlert (ev : Event) : Alert :=
  let dayTotal := Fields ev !! "day_total" in
  let message := "It's raining! (" +:+ Sprintf_f 2 dayTotal +:+ "mm today)" in
  tweet message "rain" 7200.

Definition belowZeroAlert : Alert := tweet "Brrr, it's gone below zero!" "temp" 7200.

Definition humidityAlert : Alert := tweet "Looks like rain..." "humidity" 7200.

Definition windAlert (avg : F) : Alert :=
  let mph := avg *~ lit_2_237 in
  let msg := "It's windy outside - " +:+ f_fmt 1 mph +:+ "mph!" in
  tweet msg "wind" 7200.

Definition checkRain (st : State) (ev : Event) : go (State * list Alert) :=
  rain ← assert_float64 (Fields ev !! "all_total");
  let sent :=
    if (lastRainTotal st !=~ lit 0) && (rain >~ lastRainTotal st)
    then [rainAlert ev] else [] in
  mret (set_lastRainTotal rain st, sent).

Definition checkTemp (st : State) (ev : Event) : go (State * list Alert) :=
  temp ← assert_float64 (Fields ev !! "temp");
  let sent1 :=
    if (lastOutsideTemp st !=~ lit 0) && (lastOutsideTemp st >=~ lit 0) && (temp <~ lit 0)
    then [belowZeroAlert] else [] in
  let st := set_lastOutsideTemp temp st in
  let '(humd, ok) := assert_float64_ok (Fields ev !! "humidity") in
  let sent2 :=
    if ok && (lastOutsideHumd st !=~ lit 0) && (lastOutsideHumd st <~ lit 96)
          && (humd >=~ lit 96)
    then [humidityAlert] else [] in
  mret (set_lastOutsideHumd humd st, sent1 ++ sent2).

(** about 2 minutes worth moving average *)
Definition smooth (avg speed : F) : F :=
  avg *~ lit 39 /~ lit 40 +~ speed *~ lit 1 /~ lit 40.

Definition checkWind (st : State) (ev : Event) : go (State * list Alert) :=
  speed ← assert_float64 (Fields ev !! "speed");
  let st := set_avgWind (smooth (avgWind st) speed) st in
  let sent := if avgWind st >~ Windy cfg then [windAlert (avgWind st)] else [] in
  mret (st, sent).

Inductive kind : Type := KRain | KTemp | KWind | KOther.

(** The [switch device]: the first case that matches is taken. *)
Definition classify (ev : Event) : kind :=
  let device := LookupDeviceName cfg ev in
  if decide (device = Outside_Rain cfg) then KRain
  else if decide (device = Outside_Temp cfg) then KTemp
  else if decide (device = Outside_Wind cfg) then KWind
  else KOther.

Definition checkEvent (st : State) (ev : Event) : go (State * list Alert) :=
  match classify ev with
  | KRain => checkRain st ev
  | KTemp => checkTemp st ev
  | KWind => checkWind st ev
  | KOther => mret (st, [])
  end.

(** *** The digest *)

Record Datapoint : Type := { At : Z; Value : F }.
Record Dataseries : Type := { Target : string; Datapoints : list Datapoint }.

Inductive query_result : Type :=
| QueryOk (data : list Dataseries)
| QueryErr (err : string).

(** [graphite.IGraphite]: [Query(from, until, target)]. *)
Definition IGraphite : Type := string → string → string → query_result.

(** [xs[i]] on a slice. *)
Definition index {A} (xs : list A) (i : nat) : go A :=
  match xs !! i with
  | Some x => Ret x
  | None =>
      Panic ("runtime error: index out of range [" +:+ Fmt.dec_of_N (N.of_nat i)
             +:+ "] with length " +:+ Fmt.dec_of_N (N.of_nat (length xs)))
  end.

Definition dquote : string := String (ascii_of_nat 34) EmptyString.

Definition query_target (sensor cf : string) : string :=
  "summarize(sensor." +:+ sensor +:+ "." +:+ cf +:+ "," +:+ dquote +:+ "100y" +:+ dquote
    +:+ "," +:+ dquote +:+ cf +:+ dquote +:+ ")".

(** Get last 24 hour temperature min/max *)
Definition getLast24 (gr : IGraphite) (sensor cf : string) : go F :=
  let target := query_target sensor cf in
  match gr "-24h" "now" target with
  | QueryErr _ => mret (lit 0)
  | QueryOk data =>
      series ← index data 0;
      point ← index (Datapoints series) 0;
      mret (Value point)
  end.

Definition noDataMessage : string :=
  "Weather: I didn't get any outside temperature data yesterday!".

Definition digestMessage (highestDesc : string) (highest : F)
    (lowestDesc : string) (lowest : F) : string :=
  "Weather: Outside it got up to " +:+ highestDesc +:+ " " +:+ f_fmt 1 highest
    +:+ "°C and went down to " +:+ lowestDesc +:+ " " +:+ f_fmt 1 lowest
    +:+ "°C in the last 24 hours.".

(** Generate weather message for yesterday *)
Definition weatherStats (gr : IGraphite) : go string :=
  highest ← getLast24 gr "garden.temp" "max";
  let highestDesc := getTempDesc highest highTemperatures in
  lowest ← getLast24 gr "garden.temp" "min";
  let lowestDesc := getTempDesc lowest lowTemperatures in
  if (lowest ==~ lit 0) && (highest ==~ lit 0)
  then mret noDataMessage
  else mret (digestMessage highestDesc highest lowestDesc lowest).

Definition tick (gr : IGraphite) : go (list Alert) :=
  msg ← weatherStats gr;
  mret [tweet msg "daily" 0].

(** *** The service loop

    [Run] waits for an event or a scheduler tick and handles it to the
    end before it waits again.  The inputs that arrive form a list; a
    tick carries the graphite server as it answers at that time.  A
    panic is not recovered anywhere, so it ends the loop and leaves the
    later inputs unhandled. *)

Inductive Input : Type :=
| EventIn (ev : Event)
| TickIn (gr : IGraphite).

Definition handle (st : State) (i : Input) : go (State * list Alert) :=
  match i with
  | EventIn ev => checkEvent st ev
  | TickIn gr => sent ← tick gr; mret (st, sent)
  end.

Record Trace : Type := {
  final : State;
  sent : list Alert;
  crash : option string;
  unhandled : list Input;
}.

Fixpoint Run (st : State) (inputs : list Input) : Trace :=
  match inputs with
  | [] => {| final := st; sent := []; crash := None; unhandled := [] |}
  | i :: rest =>
      match handle st i with
      | Panic msg => {| final := st; sent := []; crash := Some msg; unhandled := rest |}
      | Ret (st', out) =>
          let tr := Run st' rest in
          {| final := final tr; sent := out ++ sent tr;
             crash := crash tr; unhandled := unhandled tr |}
      end
  end.

End Service.
End Weather.

(** ** Observing the alerts that were sent *)

Module Observe.
Import Weather.

(** How many of the alerts in [out] went to subtopic [topic]. *)
Definition alerts_on (topic : string) (out : list Alert) : nat :=
  length (filter (fun a => subtopic a = topic) out).

Local Open Scope num_scope.
Import IEEE.

(** [ev] is a reading of kind [k] whose field [field] holds the number [x]. *)
Definition reading_of {F : Type} (cfg : @Config F) (k : kind) (field : string)
    (ev : @Event F) (x : F) : Prop :=
  classify cfg ev = k ∧ Fields ev !! field = Some (VFloat x).

(** The three edge conditions, in the words of the source. *)
Definition rain_fires (st : @State float64) (rain : float64) : bool :=
  (lastRainTotal st !=~ lit 0) && (rain >~ lastRainTotal st).

Definition below_zero_fires (st : @State float64) (t : float64) : bool :=
  (lastOutsideTemp st !=~ lit 0) && (lastOutsideTemp st >=~ lit 0) && (t <~ lit 0).

Definition humidity_fires (st : @State float64) (humd : float64) : bool :=
  (lastOutsideHumd st !=~ lit 0) && (lastOutsideHumd st <~ lit 96) && (humd >=~ lit 96).

(** Breakpoints strictly increasing from one entry to the next. *)
Fixpoint ascending (temps : list (@td float64)) : bool :=
  match temps with
  | a :: (b :: _) as rest => (temp a <~ temp b) && ascending rest
  | _ => true
  end.

(** Zero or one alert. *)
Definition pick (b : bool) (a : @Alert) : list Alert := if b then [a] else [].

End Observe.

(** ** A concrete installation, used to run the service on examples *)

Module Demo.
Import Weather IEEE.

(** The double nearest to [n / d], both small integers. *)
Definition num (n d : Z) : float64 := f_div (f_of_Z n) (f_of_Z d).

Definition device_name (ev : @Event float64) : string := Topic ev +:+ ".garden".

Definition config (windy : float64) : @Config float64 := {|
  LookupDeviceName := device_name;
  Outside_Rain := "rain.garden";
  Outside_Temp := "temp.garden";
  Outside_Wind := "wind.garden";
  Windy := windy;
|}.

Definition reading (topic field : string) (x : float64) : @Event float64 :=
  {| Topic := topic; Fields := {[ field := VFloat x ]} |}.

Definition seeded (rain temp humd wind : float64) : @State float64 :=
  {| lastRainTotal := rain; lastOutsideTemp := temp;
     lastOutsideHumd := humd; avgWind := wind |}.

(** A graphite server that answers the two digest queries. *)
Definition series (x : float64) : query_result :=
  QueryOk [{| Target := "garden.temp"; Datapoints := [{| At := 0; Value := x |}] |}].

Definition graphite (qmax qmin : @query_result float64) : @IGraphite float64 :=
  fun _ _ target =>
    if decide (target = query_target "garden.temp" "max") then qmax else qmin.

(** The two-entry table of the specification's example. *)
Definition table : list (@td float64) := [
  {| temp := lit 0; noun := "freezing" |};
  {| temp := lit 5; noun := "cold" |}
].

(** Inputs that the loop can receive and does not survive. *)
Definition rain_without_total : @Event float64 := reading "rain" "day_total" (num 3 2).

Definition temp_as_text : @Event float64 :=
  {| Topic := "temp"; Fields := {[ "temp" := VString "n/a" ]} |}.

Definition wind_without_speed : @Event float64 := {| Topic := "wind"; Fields := ∅ |}.

Definition empty_answer : @IGraphite float64 := fun _ _ _ => QueryOk [].

Definition empty_series : @IGraphite float64 :=
  fun _ _ _ => QueryOk [{| Target := "garden.temp"; Datapoints := [] |}].

(** Inputs that would be handled without trouble. *)
Definition later : list (@Input float64) := [
  EventIn (reading "rain" "all_total" (num 11 2));
  TickIn (graphite (series (num 21 2)) (series (num 6 5)))
].

End Demo.

(** ** The RFID reader service, [services/rfid/main.go]

    The reader is a USB keyboard: a tag arrives as key presses, digits
    first and Enter last.  [uint16] arithmetic wraps at 65536. *)

Module Rfid.
Import Weather IEEE.

Definition uint16 (z : Z) : Z := z mod 65536.

Definition convertKeyCode (code : Z) : Z :=
  if (2 <=? code) && (code <=? 10) then uint16 (uint16 (code - 2) + 49)
  else if code =? 11 then 48
  else if (code =? 96) || (code =? 28) then 10
  else 0.

Definition byte (z : Z) : ascii := ascii_of_N (Z.to_N z).

(** [string(ch)] for an integer [ch] below 65536: the UTF-8 encoding of
    that code point, U+FFFD for a surrogate half. *)
Definition string_of_rune (r : Z) : string :=
  if r <? 128 then String (byte r) EmptyString
  else if r <? 2048 then
    String (byte (192 + r / 64)) (String (byte (128 + r mod 64)) EmptyString)
  else if (55296 <=? r) && (r <=? 57343) then
    String (byte 239) (String (byte 191) (String (byte 189) EmptyString))
  else
    String (byte (224 + r / 4096))
      (String (byte (128 + (r / 64) mod 64)) (String (byte (128 + r mod 64)) EmptyString)).

(** [evdev.InputEvent] without its time stamp. *)
Record InputEvent : Type := { Type_ : Z; Code : Z; Value : Z }.

(** The event that [emit] hands to [services.Publisher.Emit]. *)
Definition emit (code : string) : @Event float64 :=
  {| Topic := "rfid";
     Fields := {[ "origin" := VString "rfid"; "command" := VString "tag";
                  "source" := VString code ]} |}.

(** One turn of the loop of [readEvents] after a successful [ReadOne]:
    the new value of [code] and what was published. *)
Definition readOne (code : string) (ev : InputEvent) : string * list (@Event float64) :=
  if (Type_ ev =? 1) && (Value ev =? 1) then
    let ch := convertKeyCode (Code ev) in
    if ch =? 10 then (EmptyString, [emit code])
    else (code +:+ string_of_rune ch, [])
  else (code, []).

Fixpoint readLoop (code : string) (reads : list InputEvent)
    : string * list (@Event float64) :=
  match reads with
  | [] => (code, [])
  | ev :: rest =>
      let '(code', out) := readOne code ev in
      let '(code'', out') := readLoop code' rest in
      (code'', out ++ out')
  end.

(** A device delivers [reads] and then fails with [failure]; the loop
    only ever returns on that error. *)
Record InputDevice : Type := { reads : list InputEvent; failure : string }.

Definition readEvents (dev : InputDevice) : string * list (@Event float64) :=
  (failure dev, snd (readLoop EmptyString (reads dev))).

(** Typing: the key code of a decimal digit, and a press followed by a
    release of a key. *)
Definition keycode_of_digit (d : Z) : Z := if d =? 0 then 11 else d + 1.

Definition press (code : Z) : InputEvent := {| Type_ := 1; Code := code; Value := 1 |}.
Definition release (code : Z) : InputEvent := {| Type_ := 1; Code := code; Value := 0 |}.

Definition type_digits (ds : list Z) : list InputEvent :=
  flat_map (fun d => [press (keycode_of_digit d); release (keycode_of_digit d)]) ds.

Definition digit_char (d : Z) : ascii := byte (48 + d).

Definition digits_string (ds : list Z) : string :=
  fold_right (fun d s => String (digit_char d) s) EmptyString ds.

Definition is_key_press (ev : InputEvent) : bool := (Type_ ev =? 1) && (Value ev =? 1).

Definition is_enter (ev : InputEvent) : bool :=
  is_key_press ev && ((Code ev =? 28) || (Code ev =? 96)).

End Rfid.

(** ** The MQTT publisher

    [Emit] publishes the event's bytes under [gohome/]; the client and
    the event's serialisation are outside the file. *)

Module Mqtt.
Import Weather IEEE.

Record Publisher : Type := { broker : string }.

Definition ID (pub : Publisher) : string := "mqtt: " +:+ broker pub.

Record Publication : Type := { qos : Z; topic : string; payload : string }.

Definition QOS_ONE : Z := 1.

Definition Emit (Bytes : @Event float64 → string) (pub : Publisher)
    (ev : @Event float64) : Publication :=
  let topic := "gohome/" +:+ Topic ev in
  {| qos := QOS_ONE; topic := topic; payload := Bytes ev |}.

End Mqtt.

(** ** Further observations on the weather service *)

Module More.
Import Weather IEEE.

(** A query that succeeded but brought no first data point. *)
Definition ok_without_point (r : @query_result float64) : bool :=
  match r with
  | QueryErr _ => false
  | QueryOk [] => true
  | QueryOk (series :: _) =>
      match Datapoints series with [] => true | _ :: _ => false end
  end.

(** The shape every alert of the service has: it goes to twitter, the
    digest with no suppression interval, the others with two hours. *)
Definition alert_shape (a : Alert) : Prop :=
  target a = "twitter"
  ∧ ((subtopic a = "daily" ∧ interval a = 0)
     ∨ (subtopic a ∈ ["rain"; "temp"; "humidity"; "wind"] ∧ interval a = 7200)).

(** [i] is not an event that [checkEvent] treats as kind [k]. *)
Definition not_of_kind (cfg : @Config float64) (k : kind) (i : @Input float64) : Prop :=
  match i with
  | EventIn ev => classify cfg ev ≠ k
  | TickIn _ => True
  end.

Definition is_tick (i : @Input float64) : bool :=
  match i with TickIn _ => true | EventIn _ => false end.

End More.

(** ** Statements under test

    Readings of the specification that the properties below decide, each
    written over the functions of the service. *)

Module Stated.
Import Weather IEEE Observe.
Local Open Scope num_scope.

(** The first reading of a signal, taken from the initial state, sends
    nothing. *)
Definition first_reading_silent (cfg : @Config float64) (ev : @Event float64) : Prop :=
  ∀ st' out, checkEvent cfg initial ev = Ret (st', out) → out = [].

(** A temperature reading with the humidity field present alerts on the
    rising edge through 96 and stores the new humidity; with the field
    absent it sends no humidity alert and leaves the stored humidity as
    it was. *)
Definition humidity_absent_keeps_state (cfg : @Config float64)
    (st : @State float64) (ev : @Event float64) : Prop :=
  ∀ t, reading_of cfg KTemp "temp" ev t →
  ∃ st' out,
    checkEvent cfg st ev = Ret (st', out)
    ∧ match Fields ev !! "humidity" with
      | Some (VFloat humd) =>
          (alerts_on "humidity" out = 1%nat ↔ humidity_fires st humd = true)
          ∧ lastOutsideHumd st' = humd
      | Some _ => True
      | None =>
          alerts_on "humidity" out = 0%nat
          ∧ lastOutsideHumd st' = lastOutsideHumd st
      end.

(** A query that failed, or that succeeded without a first data point. *)
Definition no_data (r : @query_result float64) : bool :=
  match r with
  | QueryErr _ => true
  | QueryOk [] => true
  | QueryOk (series :: _) =>
      match Datapoints series with [] => true | _ :: _ => false end
  end.

Definition answer (gr : @IGraphite float64) (cf : string) : query_result :=
  gr "-24h" "now" (query_target "garden.temp" cf).

(** If either query has no data the digest is the fallback sentence. *)
Definition fallback_when_either_missing (gr : @IGraphite float64) : Prop :=
  no_data (answer gr "max") = true ∨ no_data (answer gr "min") = true →
  weatherStats gr = Ret noDataMessage.


(** The smoothed average after [n] readings of the same sample. *)
Fixpoint smooth_n {F : Type} `{Number F} (n : nat) (avg s : F) : F :=
  match n with
  | O => avg
  | S k => smooth_n k (smooth avg s) s
  end.

Definition f_min (x y : float64) : float64 := if x <~ y then x else y.
Definition f_max (x y : float64) : float64 := if x <~ y then y else x.

(** Under a constant sample the average never leaves the interval
    spanned by where it started and the sample. *)
Definition smoothing_stays_in_bounds (avg0 s : float64) : Prop :=
  ∀ n, f_leb (f_min avg0 s) (smooth_n n avg0 s) = true
       ∧ f_leb (smooth_n n avg0 s) (f_max avg0 s) = true.

End Stated.

(** * Properties *)

(** ** Order facts for binary64 comparisons *)

Module Order.
Import IEEE.

(** Swapping the operands of a comparison reverses its outcome; an
    unordered pair (a NaN on either side) stays unordered. *)
Lemma SFcompare_swap (x y : float64) :
  SFcompare y x = option_map CompOpp (SFcompare x y).
Proof.
  destruct x as [sx|sx| |sx mx ex], y as [sy|sy| |sy my ey]; simpl;
    try destruct sx; try destruct sy; try reflexivity;
    rewrite (Z.compare_antisym ex ey); destruct (ex ?= ey); simpl;
    try reflexivity; f_equal.
  - rewrite CompOpp_involutive. exact (Pos.compare_cont_antisym my mx Eq).
  - symmetry. exact (Pos.compare_cont_antisym mx my Eq).
Qed.

Lemma ltb_irrefl (x : float64) : SFltb x x = false.
Proof.
  unfold SFltb. pose proof (SFcompare_swap x x) as E.
  destruct (SFcompare x x) as [[]|]; simpl in E; congruence.
Qed.

Lemma ltb_excludes_leb (x y : float64) : SFltb x y = true → SFleb y x = false.
Proof.
  unfold SFltb, SFleb. rewrite (SFcompare_swap x y).
  destruct (SFcompare x y) as [[]|]; simpl; congruence.
Qed.

Lemma leb_excludes_ltb (x y : float64) : SFleb y x = true → SFltb x y = false.
Proof.
  intros L. destruct (SFltb x y) eqn:E; [|reflexivity].
  apply ltb_excludes_leb in E. congruence.
Qed.

End Order.

(** ** The embedding at work *)

Section Samples.
Import Weather IEEE Observe.
Local Open Scope num_scope.

Example fmt_samples :
  map (f_fmt 1) [Demo.num (-3) 1; Demo.num 21 20; Demo.num 1 4; Demo.num (-1) 100;
                 IEEE.NaN; IEEE.pos_inf; lit_2_237]
  = ["-3.0"; "1.1"; "0.2"; "-0.0"; "NaN"; "+Inf"; "2.2"].
Proof. vm_compute. reflexivity. Qed.

Example lit_2_237_nearest :
  @lit_2_237 float64 _ = S754_finite false 5037276183213900 (-51)
  ∧ is_float64 lit_2_237 = true.
Proof. vm_compute. split; reflexivity. Qed.

Example tables_ascending :
  ascending lowTemperatures = true ∧ ascending highTemperatures = true.
Proof. vm_compute. split; reflexivity. Qed.

Example wind_tweet :
  checkEvent (Demo.config (lit 1)) initial (Demo.reading "wind" "speed" (lit 50))
  = Ret (set_avgWind (Demo.num 5 4) initial,
         [tweet "It's windy outside - 2.8mph!" "wind" 7200]).
Proof. vm_compute. reflexivity. Qed.

Example rain_tweet :
  checkEvent (Demo.config (lit 1)) (Demo.seeded (lit 5) (lit 0) (lit 0) (lit 0))
    {| Topic := "rain";
       Fields := {[ "all_total" := VFloat (Demo.num 11 2); "day_total" := VFloat (Demo.num 5 4) ]} |}
  = Ret (Demo.seeded (Demo.num 11 2) (lit 0) (lit 0) (lit 0),
         [tweet "It's raining! (1.25mm today)" "rain" 7200]).
Proof. vm_compute. reflexivity. Qed.

Example digest_tweet :
  tick (Demo.graphite (Demo.series (Demo.num 21 2)) (Demo.series (Demo.num 6 5)))
  = Ret [tweet ("Weather: Outside it got up to a cool 10.5°C and went down to "
                +:+ "a frosty 1.2°C in the last 24 hours.") "daily" 0].
Proof. vm_compute. reflexivity. Qed.

(** Humidity 90 then 97 alerts once; 97 then 98 does not alert. *)
Example humidity_sequences :
  let ev h := {| Topic := "temp";
                 Fields := {[ "temp" := VFloat (lit 12); "humidity" := VFloat h ]} |} in
  let st h := Demo.seeded (lit 0) (lit 12) h (lit 0) in
  checkEvent (Demo.config (lit 1)) (st (lit 90)) (ev (lit 97)) = Ret (st (lit 97), [humidityAlert])
  ∧ checkEvent (Demo.config (lit 1)) (st (lit 97)) (ev (lit 98)) = Ret (st (lit 98), []).
Proof. vm_compute. split; reflexivity. Qed.

End Samples.

(** ** What [checkEvent] returns on a well-formed reading *)

Section Readings.
Import Weather IEEE Observe.
Local Open Scope num_scope.

Lemma checkEvent_rain (cfg : @Config float64) st ev rain :
  reading_of cfg KRain "all_total" ev rain →
  checkEvent cfg st ev
  = Ret (set_lastRainTotal rain st, pick (rain_fires st rain) (rainAlert ev)).
Proof.
  intros [Hk Hf]. unfold checkEvent, checkRain. rewrite Hk, Hf. reflexivity.
Qed.

Lemma checkEvent_temp (cfg : @Config float64) st ev t :
  reading_of cfg KTemp "temp" ev t →
  checkEvent cfg st ev =
    Ret (match Fields ev !! "humidity" with
         | Some (VFloat humd) =>
             (set_lastOutsideHumd humd (set_lastOutsideTemp t st),
              pick (below_zero_fires st t) belowZeroAlert
                ++ pick (humidity_fires st humd) humidityAlert)
         | _ =>
             (set_lastOutsideHumd (lit 0) (set_lastOutsideTemp t st),
              pick (below_zero_fires st t) belowZeroAlert)
         end).
Proof.
  intros [Hk Hf]. unfold checkEvent, checkTemp. rewrite Hk, Hf.
  destruct (Fields ev !! "humidity") as [[humd|s|b]|]; simpl;
    rewrite ?app_nil_r; reflexivity.
Qed.

Lemma checkEvent_wind {F : Type} `{Number F} (cfg : @Config F) st ev speed :
  reading_of cfg KWind "speed" ev speed →
  checkEvent cfg st ev =
    Ret (set_avgWind (smooth (avgWind st) speed) st,
         if smooth (avgWind st) speed >~ Windy cfg
         then [windAlert (smooth (avgWind st) speed)] else []).
Proof.
  intros [Hk Hf]. unfold checkEvent, checkWind. rewrite Hk, Hf. reflexivity.
Qed.

Lemma alerts_on_pick topic b a :
  alerts_on topic (pick b a)
  = if b && bool_decide (subtopic a = topic) then 1%nat else 0%nat.
Proof.
  unfold alerts_on, pick. destruct b; simpl; [|reflexivity].
  rewrite filter_cons, filter_nil. unfold bool_decide.
  destruct (decide_rel eq (subtopic a) topic); destruct (decide (subtopic a = topic));
    simpl; congruence.
Qed.

Lemma alerts_on_app topic out1 out2 :
  alerts_on topic (out1 ++ out2) = (alerts_on topic out1 + alerts_on topic out2)%nat.
Proof. unfold alerts_on. rewrite filter_app, length_app. reflexivity. Qed.

Lemma alerts_on_pick_same topic b a :
  subtopic a = topic → alerts_on topic (pick b a) = if b then 1%nat else 0%nat.
Proof.
  intros E. rewrite alerts_on_pick, bool_decide_eq_true_2 by exact E.
  rewrite andb_true_r. reflexivity.
Qed.

Lemma alerts_on_pick_other topic b a :
  subtopic a ≠ topic → alerts_on topic (pick b a) = 0%nat.
Proof.
  intros E. rewrite alerts_on_pick, bool_decide_eq_false_2 by exact E.
  rewrite andb_false_r. reflexivity.
Qed.

Lemma one_iff_and3 (b1 b2 b3 : bool) :
  ((if b1 && b2 && b3 then 1%nat else 0%nat) = 1%nat ↔ b1 = true ∧ b2 = true ∧ b3 = true)
  ∧ ((if b1 && b2 && b3 then 1%nat else 0%nat) = 0%nat
     ∨ (if b1 && b2 && b3 then 1%nat else 0%nat) = 1%nat).
Proof.
  destruct b1, b2, b3; simpl; (split; [split; [intros E | intros (? & ? & ?)] | auto]);
    first [repeat split; congruence | discriminate | reflexivity].
Qed.

End Readings.

(** ** Rain *)

Section Rain.
Import Weather IEEE Observe.
Local Open Scope num_scope.

(** C5.  On a rain reading, from any rolling state, a rain alert is sent
    exactly when the stored total is non-zero ([!= 0.0]) and the new
    cumulative total is strictly greater than it; no other alert is sent;
    and whether or not the alert fired the stored total becomes the new
    value while the other three variables keep theirs. *)
Theorem rain_alert_iff (cfg : @Config float64) (st : @State float64)
    (ev : @Event float64) (rain : float64) :
  reading_of cfg KRain "all_total" ev rain →
  ∃ st' out,
    checkEvent cfg st ev = Ret (st', out)
    ∧ st' = set_lastRainTotal rain st
    ∧ lastRainTotal st' = rain
    ∧ (alerts_on "rain" out = 1%nat
       ↔ lastRainTotal st !=~ lit 0 = true ∧ rain >~ lastRainTotal st = true)
    ∧ (out = [] ∨ out = [rainAlert ev]).
Proof.
  intros Hr. exists (set_lastRainTotal rain st), (pick (rain_fires st rain) (rainAlert ev)).
  split; [apply checkEvent_rain, Hr|].
  split; [reflexivity|]. split; [reflexivity|].
  unfold rain_fires. rewrite alerts_on_pick.
  destruct (lastRainTotal st !=~ lit 0), (rain >~ lastRainTotal st); simpl;
    (split; [split; [intros E; first [split; congruence | discriminate E]
                    | intros [? ?]; first [reflexivity | discriminate]]
            | auto]).
Qed.

Lemma rain_alert_iff_witness :
  ∃ st' out,
    checkEvent (Demo.config (Demo.num 10 1))
      (Demo.seeded (Demo.num 5 1) (lit 0) (lit 0) (lit 0))
      (Demo.reading "rain" "all_total" (Demo.num 11 2)) = Ret (st', out)
    ∧ st' = set_lastRainTotal (Demo.num 11 2) (Demo.seeded (Demo.num 5 1) (lit 0) (lit 0) (lit 0))
    ∧ lastRainTotal st' = Demo.num 11 2
    ∧ (alerts_on "rain" out = 1%nat
       ↔ lastRainTotal (Demo.seeded (Demo.num 5 1) (lit 0) (lit 0) (lit 0)) !=~ lit 0 = true
         ∧ Demo.num 11 2 >~ lastRainTotal (Demo.seeded (Demo.num 5 1) (lit 0) (lit 0) (lit 0)) = true)
    ∧ (out = [] ∨ out = [rainAlert (Demo.reading "rain" "all_total" (Demo.num 11 2))]).
Proof.
  apply (rain_alert_iff (Demo.config (Demo.num 10 1))).
  split; vm_compute; reflexivity.
Defined.

End Rain.

(** ** The loop, one input at a time *)

Section Loop.
Import Weather IEEE Observe.

Lemma Ret_pair_inj {A B : Type} (a a' : A) (b b' : B) :
  Ret (a, b) = Ret (a', b') → a = a' ∧ b = b'.
Proof. intros E. injection E as -> ->. split; reflexivity. Qed.

Lemma Run_cons_ret {F : Type} `{Number F} (cfg : @Config F) st i rest st' out :
  handle cfg st i = Ret (st', out) →
  Run cfg st (i :: rest) =
    {| final := final (Run cfg st' rest); sent := out ++ sent (Run cfg st' rest);
       crash := crash (Run cfg st' rest); unhandled := unhandled (Run cfg st' rest) |}.
Proof. intros E. simpl. rewrite E. reflexivity. Qed.

Lemma Run_cons_panic {F : Type} `{Number F} (cfg : @Config F) st i rest msg :
  handle cfg st i = Panic msg →
  Run cfg st (i :: rest) =
    {| final := st; sent := []; crash := Some msg; unhandled := rest |}.
Proof. intros E. simpl. rewrite E. reflexivity. Qed.

End Loop.

(** ** Temperature: the zero crossing *)

Section ZeroCrossing.
Import Weather IEEE Observe.
Local Open Scope num_scope.

Lemma temp_step (cfg : @Config float64) st ev t :
  reading_of cfg KTemp "temp" ev t →
  ∃ st' out,
    checkEvent cfg st ev = Ret (st', out)
    ∧ lastOutsideTemp st' = t
    ∧ alerts_on "temp" out = if below_zero_fires st t then 1%nat else 0%nat.
Proof.
  intros Hr. rewrite (checkEvent_temp cfg st ev t Hr).
  destruct (Fields ev !! "humidity") as [[humd|s|b]|];
    eexists _, _; (split; [reflexivity|]); (split; [reflexivity|]);
    rewrite ?alerts_on_app, !alerts_on_pick; simpl;
    destruct (below_zero_fires st t); simpl; try reflexivity;
    destruct (humidity_fires st humd); reflexivity.
Qed.

Lemma temp_pair (cfg : @Config float64) st ev1 ev2 t1 t2 :
  reading_of cfg KTemp "temp" ev1 t1 →
  reading_of cfg KTemp "temp" ev2 t2 →
  ∃ st1,
    lastOutsideTemp st1 = t1
    ∧ crash (Run cfg st [EventIn ev1; EventIn ev2]) = None
    ∧ alerts_on "temp" (sent (Run cfg st [EventIn ev1; EventIn ev2]))
      = ((if below_zero_fires st t1 then 1 else 0)
         + (if below_zero_fires st1 t2 then 1 else 0))%nat.
Proof.
  intros H1 H2.
  destruct (temp_step cfg st ev1 t1 H1) as (st1 & out1 & E1 & L1 & A1).
  destruct (temp_step cfg st1 ev2 t2 H2) as (st2 & out2 & E2 & L2 & A2).
  exists st1. split; [exact L1|].
  rewrite (Run_cons_ret cfg st (EventIn ev1) _ st1 out1 E1).
  rewrite (Run_cons_ret cfg st1 (EventIn ev2) _ st2 out2 E2). simpl.
  split; [reflexivity|].
  rewrite app_nil_r, alerts_on_app, A1, A2. reflexivity.
Qed.

(** C6.  On a temperature reading the below-zero alert is sent exactly
    when the stored temperature is non-zero, is at least zero, and the new
    temperature is below zero; the stored temperature then becomes the new
    value in every case.  Hence the readings 1.0, -0.5 send exactly one
    such alert from any prior state, and the readings -1.0, -2.0 send none
    when the prior state is unseeded or already below zero (in particular
    none for the second reading, the state then holding -1.0). *)
Theorem below_zero_edge_trigger (cfg : @Config float64) :
  (∀ st ev t,
     reading_of cfg KTemp "temp" ev t →
     ∃ st' out,
       checkEvent cfg st ev = Ret (st', out)
       ∧ lastOutsideTemp st' = t
       ∧ (alerts_on "temp" out = 1%nat
          ↔ lastOutsideTemp st !=~ lit 0 = true
            ∧ lastOutsideTemp st >=~ lit 0 = true
            ∧ t <~ lit 0 = true)
       ∧ (alerts_on "temp" out = 0%nat ∨ alerts_on "temp" out = 1%nat))
  ∧ (∀ st ev1 ev2,
       reading_of cfg KTemp "temp" ev1 (Demo.num 1 1) →
       reading_of cfg KTemp "temp" ev2 (Demo.num (-1) 2) →
       crash (Run cfg st [EventIn ev1; EventIn ev2]) = None
       ∧ alerts_on "temp" (sent (Run cfg st [EventIn ev1; EventIn ev2])) = 1%nat)
  ∧ (∀ st ev1 ev2,
       reading_of cfg KTemp "temp" ev1 (Demo.num (-1) 1) →
       reading_of cfg KTemp "temp" ev2 (Demo.num (-2) 1) →
       lastOutsideTemp st ==~ lit 0 = true ∨ lastOutsideTemp st <~ lit 0 = true →
       crash (Run cfg st [EventIn ev1; EventIn ev2]) = None
       ∧ alerts_on "temp" (sent (Run cfg st [EventIn ev1; EventIn ev2])) = 0%nat)
  ∧ (∀ st ev,
       lastOutsideTemp st = Demo.num (-1) 1 →
       reading_of cfg KTemp "temp" ev (Demo.num (-2) 1) →
       ∃ st' out, checkEvent cfg st ev = Ret (st', out) ∧ alerts_on "temp" out = 0%nat).
Proof.
  split; [|split; [|split]].
  - intros st ev t Hr.
    destruct (temp_step cfg st ev t Hr) as (st' & out & E & L & A).
    exists st', out. split; [exact E|]. split; [exact L|]. rewrite A.
    unfold below_zero_fires.
    destruct (lastOutsideTemp st !=~ lit 0), (lastOutsideTemp st >=~ lit 0), (t <~ lit 0);
      simpl; (split; [split; [intros E'; first [repeat split; congruence | discriminate E']
                             | intros (? & ? & ?); first [reflexivity | discriminate]]
                     | auto]).
  - intros st ev1 ev2 H1 H2.
    destruct (temp_pair cfg st ev1 ev2 _ _ H1 H2) as (st1 & L1 & C & A).
    split; [exact C|]. rewrite A. unfold below_zero_fires. rewrite L1.
    replace (Demo.num 1 1 <~ lit 0) with false by (vm_compute; reflexivity).
    rewrite andb_false_r. vm_compute. reflexivity.
  - intros st ev1 ev2 H1 H2 Hst.
    destruct (temp_pair cfg st ev1 ev2 _ _ H1 H2) as (st1 & L1 & C & A).
    split; [exact C|]. rewrite A. unfold below_zero_fires. rewrite L1.
    replace (Demo.num (-1) 1 >=~ lit 0) with false by (vm_compute; reflexivity).
    rewrite andb_false_r. simpl.
    destruct Hst as [Z|B].
    + simpl in Z. rewrite Z. reflexivity.
    + apply Order.ltb_excludes_leb in B. simpl in B.
      rewrite B, andb_false_r. reflexivity.
  - intros st ev Hst Hr.
    destruct (temp_step cfg st ev _ Hr) as (st' & out & E & L & A).
    exists st', out. split; [exact E|]. rewrite A. unfold below_zero_fires. rewrite Hst.
    vm_compute. reflexivity.
Qed.

End ZeroCrossing.

Section ZeroCrossingRuns.
Import Weather IEEE Observe.

Lemma below_zero_edge_trigger_witness :
  alerts_on "temp"
    (sent (Run (Demo.config (Demo.num 10 1)) (Demo.seeded (lit 0) (Demo.num 7 1) (lit 0) (lit 0))
             [EventIn (Demo.reading "temp" "temp" (Demo.num 1 1));
              EventIn (Demo.reading "temp" "temp" (Demo.num (-1) 2))])) = 1%nat
  ∧ alerts_on "temp"
      (sent (Run (Demo.config (Demo.num 10 1)) initial
               [EventIn (Demo.reading "temp" "temp" (Demo.num (-1) 1));
                EventIn (Demo.reading "temp" "temp" (Demo.num (-2) 1))])) = 0%nat.
Proof.
  destruct (below_zero_edge_trigger (Demo.config (Demo.num 10 1))) as (_ & P1 & P2 & _).
  split.
  - apply P1; split; vm_compute; reflexivity.
  - apply P2; [split; vm_compute; reflexivity | split; vm_compute; reflexivity
              | left; vm_compute; reflexivity].
Defined.

End ZeroCrossingRuns.

(** ** Temperature: the humidity threshold *)

Section Humidity.
Import Weather IEEE Observe.
Local Open Scope num_scope.

(** C4, as stated, fails: with 90 stored, a temperature reading that has
    no humidity field stores 0, not 90. *)
Lemma humidity_absent_resets_state :
  ¬ Stated.humidity_absent_keeps_state (Demo.config (Demo.num 10 1))
      (Demo.seeded (lit 0) (Demo.num 5 1) (Demo.num 90 1) (lit 0))
      (Demo.reading "temp" "temp" (Demo.num 4 1)).
Proof.
  intros C.
  destruct (C (Demo.num 4 1)) as (st' & out & E & M).
  - split; vm_compute; reflexivity.
  - vm_compute in E. injection E as <- <-. vm_compute in M.
    destruct M as [_ M]. discriminate M.
Qed.

(** C4, amended.  On a temperature reading whose humidity field holds a
    number, the humidity alert is sent exactly when the stored humidity is
    non-zero and below 96 and the new humidity is at least 96, and the
    stored humidity becomes the new value.  When the field is absent or
    not a number, no humidity alert is sent and the stored humidity
    becomes 0, the value that stands for never observed. *)
Theorem humidity_alert_and_update (cfg : @Config float64) (st : @State float64)
    (ev : @Event float64) (t : float64) :
  reading_of cfg KTemp "temp" ev t →
  ∃ st' out,
    checkEvent cfg st ev = Ret (st', out)
    ∧ match Fields ev !! "humidity" with
      | Some (VFloat humd) =>
          (alerts_on "humidity" out = 1%nat
           ↔ lastOutsideHumd st !=~ lit 0 = true
             ∧ lastOutsideHumd st <~ lit 96 = true
             ∧ humd >=~ lit 96 = true)
          ∧ (alerts_on "humidity" out = 0%nat ∨ alerts_on "humidity" out = 1%nat)
          ∧ lastOutsideHumd st' = humd
      | _ =>
          alerts_on "humidity" out = 0%nat
          ∧ lastOutsideHumd st' = lit 0
      end.
Proof.
  intros Hr. rewrite (checkEvent_temp cfg st ev t Hr).
  assert (N : ∀ b, alerts_on "humidity" (pick b belowZeroAlert) = 0%nat)
    by (intros b; apply alerts_on_pick_other; discriminate).
  destruct (Fields ev !! "humidity") as [[humd|s|b]|]; eexists _, _;
    (split; [reflexivity|]); try (split; [apply N | reflexivity]).
  rewrite alerts_on_app, N, alerts_on_pick_same by reflexivity.
  unfold humidity_fires. rewrite Nat.add_0_l.
  destruct (one_iff_and3 (lastOutsideHumd st !=~ lit 0) (lastOutsideHumd st <~ lit 96)
              (humd >=~ lit 96)) as [I B].
  split; [exact I|]. split; [exact B | reflexivity].
Qed.

Lemma humidity_alert_and_update_witness :
  ∃ st' out,
    checkEvent (Demo.config (Demo.num 10 1))
      (Demo.seeded (lit 0) (Demo.num 5 1) (Demo.num 90 1) (lit 0))
      (Demo.reading "temp" "temp" (Demo.num 4 1)) = Ret (st', out)
    ∧ alerts_on "humidity" out = 0%nat
    ∧ lastOutsideHumd st' = lit 0.
Proof.
  apply (humidity_alert_and_update (Demo.config (Demo.num 10 1))
           (Demo.seeded (lit 0) (Demo.num 5 1) (Demo.num 90 1) (lit 0))
           (Demo.reading "temp" "temp" (Demo.num 4 1)) (Demo.num 4 1)).
  split; vm_compute; reflexivity.
Defined.

End Humidity.

(** ** Replaying a reading *)

Section Replay.
Import Weather IEEE Observe.
Local Open Scope num_scope.

Lemma checkEvent_ret_inv (cfg : @Config float64) st ev st' out :
  checkEvent cfg st ev = Ret (st', out) →
  match classify cfg ev with
  | KRain => ∃ rain, reading_of cfg KRain "all_total" ev rain
  | KTemp => ∃ t, reading_of cfg KTemp "temp" ev t
  | KWind => ∃ speed, reading_of cfg KWind "speed" ev speed
  | KOther => st' = st ∧ out = []
  end.
Proof.
  unfold checkEvent, reading_of. destruct (classify cfg ev) eqn:K.
  - unfold checkRain. destruct (Fields ev !! "all_total") as [[x|s|b]|]; try discriminate.
    intros _. exists x. split; reflexivity.
  - unfold checkTemp. destruct (Fields ev !! "temp") as [[x|s|b]|]; try discriminate.
    intros _. exists x. split; reflexivity.
  - unfold checkWind. destruct (Fields ev !! "speed") as [[x|s|b]|]; try discriminate.
    intros _. exists x. split; reflexivity.
  - intros E. injection E as <- <-. split; reflexivity.
Qed.

Lemma rain_fires_replay st rain : rain_fires (set_lastRainTotal rain st) rain = false.
Proof.
  unfold rain_fires. simpl lastRainTotal.
  assert (L : (rain >~ rain) = false) by exact (Order.ltb_irrefl rain).
  rewrite L. apply andb_false_r.
Qed.

Lemma below_zero_fires_replay st t humd :
  below_zero_fires (set_lastOutsideHumd humd (set_lastOutsideTemp t st)) t = false.
Proof.
  unfold below_zero_fires. simpl lastOutsideTemp.
  destruct (t <~ lit 0) eqn:L; [|apply andb_false_r].
  assert (L' : (t >=~ lit 0) = false) by exact (Order.ltb_excludes_leb _ _ L).
  rewrite L', andb_false_r. reflexivity.
Qed.

Lemma humidity_fires_replay st humd :
  humidity_fires (set_lastOutsideHumd humd st) humd = false.
Proof.
  unfold humidity_fires. simpl lastOutsideHumd.
  destruct (humd <~ lit 96) eqn:L; [|rewrite andb_false_r; reflexivity].
  assert (L' : (humd >=~ lit 96) = false) by exact (Order.ltb_excludes_leb _ _ L).
  rewrite L'. apply andb_false_r.
Qed.

Lemma alerts_on_le_1_pick topic b a : (alerts_on topic (pick b a) ≤ 1)%nat.
Proof. rewrite alerts_on_pick. destruct (b && _); lia. Qed.

Lemma alerts_on_le_1_two topic b1 b2 a1 a2 :
  subtopic a1 ≠ subtopic a2 →
  (alerts_on topic (pick b1 a1 ++ pick b2 a2) ≤ 1)%nat.
Proof.
  intros N. rewrite alerts_on_app, !alerts_on_pick.
  destruct (bool_decide (subtopic a1 = topic)) eqn:E1,
           (bool_decide (subtopic a2 = topic)) eqn:E2.
  - apply bool_decide_eq_true in E1, E2. congruence.
  - rewrite andb_false_r. destruct (b1 && true); simpl; lia.
  - rewrite andb_false_r. destruct (b2 && true); simpl; lia.
  - rewrite !andb_false_r. simpl. lia.
Qed.

(** C9.  For a rain or temperature reading (the kinds with edge-triggered
    alerts), handling the same reading a second time straight after the
    first sends no alert at all and leaves the state as the first pass
    left it; so over the two passes each of the rain, below-zero and
    humidity alerts is sent at most once. *)
Theorem replay_sends_nothing (cfg : @Config float64) (st st1 : @State float64)
    (ev : @Event float64) (out1 : list Alert) :
  classify cfg ev ≠ KWind →
  checkEvent cfg st ev = Ret (st1, out1) →
  checkEvent cfg st1 ev = Ret (st1, [])
  ∧ ∀ st2 out2 topic,
      checkEvent cfg st1 ev = Ret (st2, out2) →
      (alerts_on topic (out1 ++ out2) ≤ 1)%nat.
Proof.
  intros NW E.
  assert (R : checkEvent cfg st1 ev = Ret (st1, [])
              ∧ ∀ topic, (alerts_on topic out1 ≤ 1)%nat).
  { pose proof (checkEvent_ret_inv cfg st ev st1 out1 E) as I.
    destruct (classify cfg ev) eqn:K; try congruence.
    - destruct I as [rain Hr].
      rewrite (checkEvent_rain cfg st ev rain Hr) in E. injection E as <- <-.
      rewrite (checkEvent_rain cfg _ ev rain Hr), rain_fires_replay.
      split; [reflexivity | intros topic; apply alerts_on_le_1_pick].
    - destruct I as [t Hr].
      rewrite (checkEvent_temp cfg st ev t Hr) in E.
      rewrite (checkEvent_temp cfg st1 ev t Hr).
      destruct (Fields ev !! "humidity") as [[humd|s|b]|]; injection E as <- <-;
        rewrite below_zero_fires_replay; try rewrite humidity_fires_replay;
        (split; [reflexivity | intros topic]); try apply alerts_on_le_1_pick.
      apply alerts_on_le_1_two. discriminate.
    - destruct I as [-> ->]. unfold checkEvent. rewrite K.
      split; [reflexivity | intros topic; unfold alerts_on; rewrite filter_nil; simpl; lia]. }
  destruct R as [R1 R2]. split; [exact R1|].
  intros st2 out2 topic E2. rewrite R1 in E2. injection E2 as <- <-.
  rewrite app_nil_r. apply R2.
Qed.

Lemma replay_sends_nothing_witness :
  checkEvent (Demo.config (Demo.num 10 1))
    (set_lastOutsideHumd (Demo.num 97 1)
       (set_lastOutsideTemp (Demo.num (-1) 2)
          (Demo.seeded (lit 0) (Demo.num 1 1) (Demo.num 90 1) (lit 0))))
    {| Topic := "temp";
       Fields := {[ "temp" := VFloat (Demo.num (-1) 2); "humidity" := VFloat (Demo.num 97 1) ]} |}
  = Ret (set_lastOutsideHumd (Demo.num 97 1)
           (set_lastOutsideTemp (Demo.num (-1) 2)
              (Demo.seeded (lit 0) (Demo.num 1 1) (Demo.num 90 1) (lit 0))), []).
Proof.
  refine (proj1 (replay_sends_nothing (Demo.config (Demo.num 10 1))
                   (Demo.seeded (lit 0) (Demo.num 1 1) (Demo.num 90 1) (lit 0))
                   _ _ [belowZeroAlert; humidityAlert] _ _)).
  - vm_compute. discriminate.
  - vm_compute. reflexivity.
Defined.

End Replay.

(** ** The first reading of a signal *)

Section FirstReading.
Import Weather IEEE Observe.
Local Open Scope num_scope.

(** C3, as stated, fails for wind: with a threshold of 1 the very first
    wind reading, at speed 50, smooths to 1.25 and is tweeted. *)
Lemma first_wind_reading_alerts :
  ¬ Stated.first_reading_silent (Demo.config (Demo.num 1 1))
      (Demo.reading "wind" "speed" (Demo.num 50 1)).
Proof.
  intros C.
  specialize (C (set_avgWind (Demo.num 5 4) initial) [windAlert (Demo.num 5 4)]).
  discriminate C. vm_compute. reflexivity.
Qed.

Lemma rain_fires_unseeded (st : @State float64) rain :
  lastRainTotal st ==~ lit 0 = true → rain_fires st rain = false.
Proof. intros Z. unfold rain_fires. rewrite Z. reflexivity. Qed.

Lemma below_zero_fires_unseeded (st : @State float64) t :
  lastOutsideTemp st ==~ lit 0 = true → below_zero_fires st t = false.
Proof. intros Z. unfold below_zero_fires. rewrite Z. reflexivity. Qed.

Lemma humidity_fires_unseeded (st : @State float64) humd :
  lastOutsideHumd st ==~ lit 0 = true → humidity_fires st humd = false.
Proof. intros Z. unfold humidity_fires. rewrite Z. reflexivity. Qed.

(** C3, amended.  A rain or temperature reading handled from the initial
    all-zero state sends no alert: it only seeds the state.  More
    generally the rain, below-zero and humidity alerts stay silent
    whenever their own stored value is zero.  Wind has no such gate: the
    first wind reading is smoothed from zero and is tweeted exactly when
    that smoothed value exceeds the configured threshold. *)
Theorem first_reading_seeds (cfg : @Config float64) (st st' : @State float64)
    (ev : @Event float64) (out : list Alert) :
  checkEvent cfg st ev = Ret (st', out) →
  (lastRainTotal st ==~ lit 0 = true → alerts_on "rain" out = 0%nat)
  ∧ (lastOutsideTemp st ==~ lit 0 = true → alerts_on "temp" out = 0%nat)
  ∧ (lastOutsideHumd st ==~ lit 0 = true → alerts_on "humidity" out = 0%nat)
  ∧ (st = initial → classify cfg ev ≠ KWind → out = [])
  ∧ (st = initial → classify cfg ev = KWind →
     ∃ speed,
       Fields ev !! "speed" = Some (VFloat speed)
       ∧ avgWind st' = smooth (lit 0) speed
       ∧ (smooth (lit 0) speed >~ Windy cfg = true →
          out = [windAlert (smooth (lit 0) speed)])
       ∧ (smooth (lit 0) speed >~ Windy cfg = false → out = [])).
Proof.
  intros E. pose proof (checkEvent_ret_inv cfg st ev st' out E) as I.
  destruct (classify cfg ev) eqn:K.
  - destruct I as [rain Hr].
    rewrite (checkEvent_rain cfg st ev rain Hr) in E. injection E as <- <-.
    repeat split; try congruence.
    + intros Z. rewrite (rain_fires_unseeded st rain Z). reflexivity.
    + intros _. apply alerts_on_pick_other. discriminate.
    + intros _. apply alerts_on_pick_other. discriminate.
    + intros -> _. rewrite rain_fires_unseeded by reflexivity. reflexivity.
  - destruct I as [t Hr].
    rewrite (checkEvent_temp cfg st ev t Hr) in E.
    assert (Q : ∀ topic b a, b = false ∨ subtopic a ≠ topic →
              alerts_on topic (pick b a) = 0%nat).
    { intros topic b a [-> | N]; [reflexivity | apply alerts_on_pick_other, N]. }
    destruct (Fields ev !! "humidity") as [[humd|s|b]|]; injection E as <- <-;
      (split; [|split; [|split; [|split]]]); try congruence;
      rewrite ?alerts_on_app.
    all: try (intros _; rewrite !Q by (right; discriminate); reflexivity).
    all: try (intros Z; rewrite (below_zero_fires_unseeded st t Z);
              rewrite !Q by first [left; reflexivity | right; discriminate];
              reflexivity).
    all: try (intros Z; rewrite (humidity_fires_unseeded st humd Z);
              rewrite !Q by first [left; reflexivity | right; discriminate];
              reflexivity).
    all: intros -> _; rewrite below_zero_fires_unseeded by reflexivity;
         rewrite ?humidity_fires_unseeded by reflexivity; reflexivity.
  - destruct I as [speed Hr].
    rewrite (checkEvent_wind cfg st ev speed Hr) in E.
    apply Ret_pair_inj in E as [<- <-].
    assert (N : ∀ topic, topic ≠ "wind" →
              alerts_on topic (if smooth (avgWind st) speed >~ Windy cfg
                               then [windAlert (smooth (avgWind st) speed)] else []) = 0%nat).
    { intros topic Ht. apply (alerts_on_pick_other topic _ (windAlert _)).
      simpl. congruence. }
    repeat split; try congruence; try (intros _; apply N; discriminate).
    intros -> _. exists speed. destruct Hr as [_ Hf].
    split; [exact Hf|]. split; [reflexivity|].
    destruct (smooth (avgWind initial) speed >~ Windy cfg) eqn:W;
      pose proof (W : (smooth (lit 0) speed >~ Windy cfg) = _) as W0;
      split; intros W'; first [reflexivity | congruence].
  - destruct I as [-> ->]. repeat split; try reflexivity; congruence.
Qed.

Lemma first_reading_seeds_witness :
  alerts_on "rain" [windAlert (Demo.num 5 4)] = 0%nat
  ∧ ∃ speed,
      Fields (Demo.reading "wind" "speed" (Demo.num 50 1)) !! "speed" = Some (VFloat speed)
      ∧ avgWind (set_avgWind (Demo.num 5 4) (Demo.seeded (lit 0) (lit 0) (lit 0) (lit 0)))
        = smooth (lit 0) speed
      ∧ (smooth (lit 0) speed >~ Windy (Demo.config (Demo.num 1 1)) = true →
         [windAlert (Demo.num 5 4)] = [windAlert (smooth (lit 0) speed)])
      ∧ (smooth (lit 0) speed >~ Windy (Demo.config (Demo.num 1 1)) = false →
         [windAlert (Demo.num 5 4)] = []).
Proof.
  destruct (first_reading_seeds (Demo.config (Demo.num 1 1))
              (Demo.seeded (lit 0) (lit 0) (lit 0) (lit 0))
              (set_avgWind (Demo.num 5 4) (Demo.seeded (lit 0) (lit 0) (lit 0) (lit 0)))
              (Demo.reading "wind" "speed" (Demo.num 50 1)) [windAlert (Demo.num 5 4)])
    as (P1 & _ & _ & _ & P5).
  - vm_compute. reflexivity.
  - split.
    + apply P1. vm_compute. reflexivity.
    + apply P5; vm_compute; reflexivity.
Defined.

End FirstReading.

(** ** Temperature descriptions *)

Section Descriptions.
Import Weather IEEE Observe.
Local Open Scope num_scope.

Lemma getTempDesc_skip (t : float64) (pre rest : list (@td float64)) :
  Forall (fun e => t <~ temp e = false) pre →
  getTempDesc t (pre ++ rest) = getTempDesc t rest.
Proof.
  induction 1 as [|e pre He _ IH]; [reflexivity|].
  change (getTempDesc t ((e :: pre) ++ rest))
    with (if t <~ temp e then noun e else getTempDesc t (pre ++ rest)).
  rewrite He. exact IH.
Qed.

Lemma getTempDesc_cons (t : float64) (e : @td float64) rest :
  getTempDesc t (e :: rest) = if t <~ temp e then noun e else getTempDesc t rest.
Proof. reflexivity. Qed.

(** C7.  [getTempDesc] is a structurally recursive function, so it
    returns a label for every value and every table.  The label is that
    of the first entry whose breakpoint is strictly above the value, and
    it is empty when the value is at or above every breakpoint.  Neither
    fact needs the table to be ascending, so both hold in particular for
    ascending tables.  On the table (0, freezing), (5, cold) the values
    -1, 3 and 10 give freezing, cold and the empty label. *)
Theorem getTempDesc_first_exceeding (t : float64) (temps : list (@td float64)) :
  (∀ pre entry post,
     temps = pre ++ entry :: post →
     Forall (fun e => t <~ temp e = false) pre →
     t <~ temp entry = true →
     getTempDesc t temps = noun entry)
  ∧ (Forall (fun e => t >=~ temp e = true) temps → getTempDesc t temps = EmptyString)
  ∧ (getTempDesc t temps = EmptyString
     ∨ ∃ pre entry post,
         temps = pre ++ entry :: post
         ∧ Forall (fun e => t <~ temp e = false) pre
         ∧ t <~ temp entry = true
         ∧ getTempDesc t temps = noun entry)
  ∧ getTempDesc (lit (-1)) Demo.table = "freezing"
  ∧ getTempDesc (lit 3) Demo.table = "cold"
  ∧ getTempDesc (lit 10) Demo.table = EmptyString.
Proof.
  split; [|split; [|split]].
  - intros pre entry post -> Hpre He.
    rewrite (getTempDesc_skip t pre _ Hpre), getTempDesc_cons, He. reflexivity.
  - induction 1 as [|e rest He _ IH]; [reflexivity|].
    rewrite getTempDesc_cons.
    assert (L : (t <~ temp e) = false) by exact (Order.leb_excludes_ltb t (temp e) He).
    rewrite L. exact IH.
  - induction temps as [|e rest IH]; [left; reflexivity|].
    rewrite getTempDesc_cons.
    destruct (t <~ temp e) eqn:He.
    + right. exists [], e, rest. repeat split; [constructor | exact He].
    + destruct IH as [IH | (pre & entry & post & -> & Hpre & Hent & IH)]; [left; exact IH|].
      right. exists (e :: pre), entry, post.
      repeat split; [constructor; assumption | exact Hent | exact IH].
  - vm_compute. repeat split.
Qed.

Lemma getTempDesc_first_exceeding_witness :
  getTempDesc (Demo.num 7 2) highTemperatures = "a rather cold"
  ∧ getTempDesc (Demo.num 40 1) highTemperatures = EmptyString.
Proof.
  destruct (getTempDesc_first_exceeding (Demo.num 7 2) highTemperatures) as (P1 & _).
  destruct (getTempDesc_first_exceeding (Demo.num 40 1) highTemperatures) as (_ & P2 & _).
  split.
  - apply (P1 [{| temp := lit 1; noun := "a very cold" |}]
              {| temp := lit 4; noun := "a rather cold" |}
              (drop 2 highTemperatures)).
    + reflexivity.
    + constructor; [vm_compute; reflexivity | constructor].
    + vm_compute. reflexivity.
  - apply P2. unfold highTemperatures.
    repeat (constructor; [vm_compute; reflexivity|]). constructor.
Defined.

End Descriptions.

(** ** Inputs the loop does not survive *)

Section Crashes.
Import Weather IEEE Observe.
Local Open Scope num_scope.

Lemma required_field_panics (cfg : @Config float64) st ev k field :
  (k, field) ∈ [(KRain, "all_total"); (KTemp, "temp"); (KWind, "speed")] →
  classify cfg ev = k →
  (∀ x, Fields ev !! field ≠ Some (VFloat x)) →
  ∃ msg, checkEvent cfg st ev = Panic msg.
Proof.
  intros Hin Hk Hf. unfold checkEvent. rewrite Hk.
  repeat (apply elem_of_cons in Hin as [Hin|Hin]; [injection Hin as -> ->|]);
    [| | |apply elem_of_nil in Hin; contradiction];
    unfold checkRain, checkTemp, checkWind;
    (destruct (Fields ev !! _) as [[x|s|b]|] eqn:F; [exfalso; exact (Hf x eq_refl)| | |]);
    eexists; reflexivity.
Qed.

Lemma empty_answer_panics (gr : @IGraphite float64) :
  Stated.answer gr "max" = QueryOk [] ∨
  (∃ target, Stated.answer gr "max" = QueryOk [{| Target := target; Datapoints := [] |}]) →
  ∃ msg, tick gr = Panic msg.
Proof.
  unfold Stated.answer, tick, weatherStats, getLast24.
  intros [E | [target E]]; rewrite E; eexists; reflexivity.
Qed.

(** C1 does not hold of the code.  A rain reading without [all_total], a
    temperature reading whose [temp] is text, a wind reading without
    [speed], and a tick whose query succeeds with no series or with a
    series without data points each panic; the panic ends [Run], nothing
    is sent, and the inputs that follow are never handled. *)
Theorem bad_input_ends_the_loop :
  ∀ bad, bad ∈ [EventIn Demo.rain_without_total; EventIn Demo.temp_as_text;
                EventIn Demo.wind_without_speed;
                TickIn Demo.empty_answer; TickIn Demo.empty_series] →
  ∃ msg,
    handle (Demo.config (Demo.num 10 1)) initial bad = Panic msg
    ∧ Run (Demo.config (Demo.num 10 1)) initial (bad :: Demo.later)
      = {| final := initial; sent := []; crash := Some msg; unhandled := Demo.later |}
    ∧ crash (Run (Demo.config (Demo.num 10 1)) initial Demo.later) = None
    ∧ length (sent (Run (Demo.config (Demo.num 10 1)) initial Demo.later)) = 1%nat.
Proof.
  intros bad Hin.
  repeat (apply elem_of_cons in Hin as [->|Hin]);
    [| | | | |apply elem_of_nil in Hin; contradiction];
    eexists; (split; [vm_compute; reflexivity|]);
    (split; [vm_compute; reflexivity|]);
    split; vm_compute; reflexivity.
Qed.

Lemma bad_input_ends_the_loop_witness :
  ∃ msg,
    handle (Demo.config (Demo.num 10 1)) initial (EventIn Demo.rain_without_total) = Panic msg
    ∧ Run (Demo.config (Demo.num 10 1)) initial (EventIn Demo.rain_without_total :: Demo.later)
      = {| final := initial; sent := []; crash := Some msg; unhandled := Demo.later |}
    ∧ crash (Run (Demo.config (Demo.num 10 1)) initial Demo.later) = None
    ∧ length (sent (Run (Demo.config (Demo.num 10 1)) initial Demo.later)) = 1%nat.
Proof.
  apply bad_input_ends_the_loop. apply list_elem_of_here.
Defined.

End Crashes.

(** ** The daily digest *)

Section Digest.
Import Weather IEEE Observe.
Local Open Scope num_scope.

Lemma digest_not_fallback hd (h : float64) ld (l : float64) :
  digestMessage hd h ld l ≠ noDataMessage.
Proof.
  intros E. apply (f_equal (String.get 9)) in E.
  unfold digestMessage, noDataMessage in E. cbn [String.append String.get] in E.
  discriminate E.
Qed.

Lemma getLast24_failed (gr : @IGraphite float64) cf err :
  Stated.answer gr cf = QueryErr err → getLast24 gr "garden.temp" cf = Ret (lit 0).
Proof. unfold Stated.answer, getLast24. intros ->. reflexivity. Qed.

Lemma getLast24_data (gr : @IGraphite float64) cf target at_ x points more :
  Stated.answer gr cf
  = QueryOk ({| Target := target; Datapoints := {| At := at_; Value := x |} :: points |} :: more) →
  getLast24 gr "garden.temp" cf = Ret x.
Proof. unfold Stated.answer, getLast24. intros ->. reflexivity. Qed.

Lemma weatherStats_of_values (gr : @IGraphite float64) h l :
  getLast24 gr "garden.temp" "max" = Ret h →
  getLast24 gr "garden.temp" "min" = Ret l →
  weatherStats gr =
    Ret (if (l ==~ lit 0) && (h ==~ lit 0) then noDataMessage
         else digestMessage (getTempDesc h highTemperatures) h
                (getTempDesc l lowTemperatures) l).
Proof.
  intros Hh Hl. unfold weatherStats, mbind, go_bind, bind.
  rewrite Hh. cbv beta iota. rewrite Hl. cbv beta iota.
  destruct ((l ==~ lit 0) && (h ==~ lit 0)); reflexivity.
Qed.

End Digest.

(** ** Fixed-point rendering has one digit after the point *)

Section OneDecimal.
Import Fmt.

Lemma append_assoc3 (a b c : string) : (a +:+ b) +:+ c = a +:+ (b +:+ c).
Proof. induction a as [|x a IH]; [reflexivity | exact (f_equal (String x) IH)]. Qed.

Lemma all_digits_app (a b : string) :
  all_digits (a +:+ b) = all_digits a && all_digits b.
Proof.
  induction a as [|x a IH]; [reflexivity|].
  change (is_digit x && all_digits (a +:+ b) = is_digit x && all_digits a && all_digits b).
  rewrite IH, andb_assoc. reflexivity.
Qed.

Lemma all_digits_zeros n : all_digits (zeros n) = true.
Proof. induction n as [|n IH]; simpl; [reflexivity | exact IH]. Qed.

Lemma all_digits_uint (d : Decimal.uint) : all_digits (NilEmpty.string_of_uint d) = true.
Proof. induction d; simpl; try reflexivity; exact IHd. Qed.

Lemma all_digits_dec_of_N n : all_digits (dec_of_N n) = true.
Proof.
  unfold dec_of_N, NilZero.string_of_uint.
  destruct (N.to_uint n); try reflexivity; apply (all_digits_uint (_ _)).
Qed.

Lemma length_append (a b : string) :
  String.length (a +:+ b) = (String.length a + String.length b)%nat.
Proof. induction a as [|x a IH]; [reflexivity | exact (f_equal S IH)]. Qed.

Lemma length_zeros n : String.length (zeros n) = n.
Proof. induction n as [|n IH]; simpl; [reflexivity | rewrite IH; reflexivity]. Qed.

(** A non-empty string splits into what precedes its last character and
    that character. *)
Lemma split_last (s : string) :
  (1 <= String.length s)%nat →
  ∃ d, substring (String.length s - 1) 1 s = String d EmptyString
       ∧ (all_digits s = true → is_digit d = true).
Proof.
  induction s as [|c s IH]; simpl; [lia|]. intros _.
  destruct s as [|c' s'].
  - exists c. split; [reflexivity|]. simpl. rewrite andb_true_r. auto.
  - destruct IH as (d & E & D); [simpl; lia|].
    exists d. simpl in E. simpl. rewrite Nat.sub_0_r in E.
    split; [exact E|].
    intros A. apply andb_prop in A as [_ A]. apply D. exact A.
Qed.

Lemma all_digits_substring (s : string) : ∀ i k,
  all_digits s = true → all_digits (substring i k s) = true.
Proof.
  induction s as [|c s IH]; intros i k A.
  - destruct i, k; reflexivity.
  - apply andb_prop in A as [C A]. destruct i as [|i].
    + destruct k as [|k]; [reflexivity|].
      change (is_digit c && all_digits (substring 0 k s) = true).
      rewrite C. exact (IH 0%nat k A).
    + exact (IH i k A).
Qed.

Lemma substring_nonempty (s : string) k :
  (1 <= k)%nat → (1 <= String.length s)%nat → substring 0 k s ≠ EmptyString.
Proof. destruct k, s; simpl; try lia; discriminate. Qed.

Lemma fixed_one_decimal neg a b : one_decimal (fixed 1 neg a b).
Proof.
  unfold fixed, place_point.
  set (digits := dec_of_N _).
  set (padded := zeros (2 - String.length digits) +:+ digits).
  assert (L : (2 <= String.length padded)%nat).
  { unfold padded. rewrite length_append, length_zeros. lia. }
  assert (A : all_digits padded = true).
  { unfold padded. rewrite all_digits_app, all_digits_zeros. apply all_digits_dec_of_N. }
  destruct (split_last padded) as (d & E & D); [lia|].
  exists neg, (substring 0 (String.length padded - 1) padded), d.
  split; [rewrite E; reflexivity|].
  split; [apply substring_nonempty; lia|].
  split; [apply all_digits_substring; exact A | exact (D A)].
Qed.

Lemma fmt_f_shown_1 (x : IEEE.float64) : IEEE.shown_1 x (f_fmt 1 x).
Proof.
  split; [reflexivity|].
  destruct x as [s|s| |s m e].
  - apply fixed_one_decimal.
  - reflexivity.
  - reflexivity.
  - simpl. destruct e; apply fixed_one_decimal.
Qed.

End OneDecimal.

(** ** The digest and its fallback *)

Section DigestClaims.
Import Weather IEEE Observe.
Local Open Scope num_scope.

(** C2, as stated, fails: when only the maximum query fails and the
    minimum is -3, the digest is a formatted sentence that carries the
    placeholder 0.0. *)
Lemma one_failed_query_is_formatted :
  ¬ Stated.fallback_when_either_missing
      (Demo.graphite (QueryErr "timeout") (Demo.series (lit (-3))))
  ∧ weatherStats (Demo.graphite (QueryErr "timeout") (Demo.series (lit (-3))))
    = Ret ("Weather: Outside it got up to a very cold 0.0°C and went down to "
           +:+ "a rather cold -3.0°C in the last 24 hours.").
Proof.
  split; [|vm_compute; reflexivity].
  intros C. assert (E := C (or_introl eq_refl)).
  vm_compute in E. discriminate E.
Qed.

(** C2, amended.  If the maximum query and the minimum query both fail,
    the digest is exactly the fallback sentence.  Whenever each query
    fails (and is then reported as 0.0) or yields a first data point, and
    the two reported values are not both zero, the digest is the single
    sentence, different from the fallback, that names the maximum with
    its description from the high table and the minimum with its
    description from the low table.  Each value is printed by [%.1f]: a
    finite value as an optional minus sign, one or more digits, a point
    and exactly one digit; a NaN or an infinity as [NaN], [+Inf] or
    [-Inf]. *)
Theorem digest_fallback_needs_both (gr : @IGraphite float64) :
  (∀ e1 e2,
     Stated.answer gr "max" = QueryErr e1 →
     Stated.answer gr "min" = QueryErr e2 →
     weatherStats gr = Ret noDataMessage)
  ∧ (∀ h l,
       getLast24 gr "garden.temp" "max" = Ret h →
       getLast24 gr "garden.temp" "min" = Ret l →
       (l ==~ lit 0) && (h ==~ lit 0) = false →
       ∃ hs ls,
         weatherStats gr
         = Ret ("Weather: Outside it got up to "
                +:+ getTempDesc h highTemperatures +:+ " " +:+ hs
                +:+ "°C and went down to "
                +:+ getTempDesc l lowTemperatures +:+ " " +:+ ls
                +:+ "°C in the last 24 hours.")
         ∧ weatherStats gr ≠ Ret noDataMessage
         ∧ shown_1 h hs ∧ shown_1 l ls).
Proof.
  split.
  - intros e1 e2 E1 E2.
    rewrite (weatherStats_of_values gr (lit 0) (lit 0));
      [reflexivity | exact (getLast24_failed gr _ e1 E1) | exact (getLast24_failed gr _ e2 E2)].
  - intros h l Hh Hl Z.
    rewrite (weatherStats_of_values gr h l Hh Hl), Z.
    exists (f_fmt 1 h), (f_fmt 1 l).
    split; [reflexivity|]. split; [|split; apply fmt_f_shown_1].
    intros E.
    apply (f_equal (fun m => match m with Ret x => x | Panic _ => EmptyString end)) in E.
    exact (digest_not_fallback _ _ _ _ E).
Qed.

Lemma digest_fallback_needs_both_witness :
  weatherStats (Demo.graphite (QueryErr "timeout") (QueryErr "timeout")) = Ret noDataMessage
  ∧ ∃ hs ls,
      weatherStats (Demo.graphite (Demo.series (Demo.num 21 2)) (Demo.series NaN))
      = Ret ("Weather: Outside it got up to "
             +:+ getTempDesc (Demo.num 21 2) highTemperatures +:+ " " +:+ hs
             +:+ "°C and went down to "
             +:+ getTempDesc NaN lowTemperatures +:+ " " +:+ ls
             +:+ "°C in the last 24 hours.")
      ∧ weatherStats (Demo.graphite (Demo.series (Demo.num 21 2)) (Demo.series NaN))
        ≠ Ret noDataMessage
      ∧ shown_1 (Demo.num 21 2) hs ∧ shown_1 NaN ls.
Proof.
  split.
  - apply (proj1 (digest_fallback_needs_both _) "timeout" "timeout"); vm_compute; reflexivity.
  - apply (proj2 (digest_fallback_needs_both _)); vm_compute; reflexivity.
Defined.




End DigestClaims.

(** ** Wind smoothing *)

Section SmoothingFloat.
Import Weather IEEE Observe.
Local Open Scope num_scope.

(** C8, as stated, fails in float64: with the average already at 1.1 and
    a reading of 1.1 (the double nearest to it), the new average is one
    unit in the last place above 1.1, outside the interval [1.1, 1.1]. *)
Lemma smoothing_rounds_out_of_bounds :
  ¬ Stated.smoothing_stays_in_bounds (Demo.num 11 10) (Demo.num 11 10)
  ∧ Demo.num 11 10 = S754_finite false 4953959590107546 (-52)
  ∧ smooth (Demo.num 11 10) (Demo.num 11 10) = S754_finite false 4953959590107547 (-52)
  ∧ is_float64 (Demo.num 11 10) = true.
Proof.
  split; [|split; [|split]; vm_compute; reflexivity].
  intros C. destruct (C 1%nat) as [_ U]. vm_compute in U. discriminate U.
Qed.

End SmoothingFloat.

(** ** Rounding of the binary64 operations

    [SpecFloat] computes a product, a quotient or a sum exactly and then
    rounds it with [binary_round_aux].  For a positive result in the
    normal range the rounded number is within a relative 2^-53 of the
    exact one; below the normal range it is zero or a positive number
    within 2^-1075 of the exact one. *)

Section Rounding.
Import IEEE Real.
Local Open Scope Q_scope.

Lemma pow2_add a b : pow2 (a + b) == pow2 a * pow2 b.
Proof. unfold pow2. apply Qpower_plus. discriminate. Qed.

Lemma pow2_pos e : 0 < pow2 e.
Proof. unfold pow2. apply Qpower_0_lt. reflexivity. Qed.

Lemma pow2_Z e : (0 <= e)%Z → pow2 e == inject_Z (2 ^ e).
Proof.
  intros H. unfold pow2. rewrite Zpower_Qpower by exact H. reflexivity.
Qed.

Lemma pow2_ge_1 e : (0 <= e)%Z → 1 <= pow2 e.
Proof.
  intros H. rewrite (pow2_Z e H). change 1 with (inject_Z 1). rewrite <- Zle_Qle.
  pose proof (Z.pow_pos_nonneg 2 e). lia.
Qed.

Lemma pow2_le a b : (a <= b)%Z → pow2 a <= pow2 b.
Proof.
  intros H. replace b with (a + (b - a))%Z by lia. rewrite pow2_add.
  pose proof (pow2_pos a). pose proof (pow2_ge_1 (b - a) ltac:(lia)). nra.
Qed.

Lemma pow2_lt_inv a b : pow2 a < pow2 b → (a < b)%Z.
Proof.
  intros H. destruct (Z_lt_le_dec a b) as [L|L]; [exact L|].
  pose proof (pow2_le b a L). lra.
Qed.

Lemma digits2_size p : digits2_pos p = Pos.size p.
Proof. induction p; simpl; congruence. Qed.

Lemma digits2_bounds p :
  (2 ^ (Zpos (digits2_pos p) - 1) <= Zpos p < 2 ^ Zpos (digits2_pos p))%Z.
Proof.
  rewrite digits2_size.
  induction p as [p IH|p IH|].
  - change (Pos.size p~1) with (Pos.succ (Pos.size p)).
    rewrite Pos2Z.inj_succ.
    replace (Z.succ (Z.pos (Pos.size p)) - 1)%Z with (Z.pos (Pos.size p) - 1 + 1)%Z by lia.
    rewrite Z.pow_add_r by lia. rewrite Z.pow_succ_r by lia. lia.
  - change (Pos.size p~0) with (Pos.succ (Pos.size p)).
    rewrite Pos2Z.inj_succ.
    replace (Z.succ (Z.pos (Pos.size p)) - 1)%Z with (Z.pos (Pos.size p) - 1 + 1)%Z by lia.
    rewrite Z.pow_add_r by lia. rewrite Z.pow_succ_r by lia. lia.
  - simpl. lia.
Qed.

Lemma digits2_unique p d :
  (2 ^ (d - 1) <= Zpos p < 2 ^ d)%Z → Zpos (digits2_pos p) = d.
Proof.
  intros [L U]. pose proof (digits2_bounds p) as [L' U'].
  set (k := Zpos (digits2_pos p)) in *.
  assert (0 < d)%Z.
  { destruct (Z_lt_le_dec 0 d); [assumption|].
    assert (2 ^ d <= 2 ^ 0)%Z by (apply Z.pow_le_mono_r; lia). simpl in *. lia. }
  destruct (Z.lt_trichotomy k d) as [C|[C|C]]; [|exact C|].
  - assert (2 ^ k <= 2 ^ (d - 1))%Z by (apply Z.pow_le_mono_r; lia). lia.
  - assert (2 ^ d <= 2 ^ (k - 1))%Z by (apply Z.pow_le_mono_r; lia). lia.
Qed.

Lemma loc_of_record_of m l : loc_of_shr_record (shr_record_of_loc m l) = l.
Proof. destruct l as [|[]]; reflexivity. Qed.

Lemma shr_m_record_of m l : shr_m (shr_record_of_loc m l) = m.
Proof. destruct l as [|[]]; reflexivity. Qed.

Lemma inject_Z_xO p : inject_Z (Zpos p~0) == 2 * inject_Z (Zpos p).
Proof. unfold Qeq. simpl. lia. Qed.

Lemma inject_Z_xI p : inject_Z (Zpos p~1) == 2 * inject_Z (Zpos p) + 1.
Proof. unfold Qeq. simpl. lia. Qed.

Ltac split_ands :=
  repeat match goal with H : _ ∧ _ |- _ => destruct H end.

Lemma shr_1_spec mrs t :
  (0 <= shr_m mrs)%Z → located t (loc_of_shr_record mrs) →
  ∃ t', located t' (loc_of_shr_record (shr_1 mrs))
        ∧ (0 <= shr_m (shr_1 mrs))%Z
        ∧ inject_Z (shr_m mrs) + t == 2 * (inject_Z (shr_m (shr_1 mrs)) + t').
Proof.
  destruct mrs as [m r s]. cbn [shr_m]. intros M L.
  destruct m as [|p|p]; [| |lia].
  - exists (t * (1#2)). change (inject_Z 0) with 0.
    destruct r, s; cbn in *; split_ands; repeat split; try lia;
      try change (inject_Z 0) with 0; try change (inject_Z 1) with 1; try lra.
  - destruct p as [p|p|].
    + exists ((1 + t) * (1#2)). pose proof (inject_Z_xI p).
      destruct r, s; cbn in *; split_ands; repeat split; try lia;
      try change (inject_Z 0) with 0; try change (inject_Z 1) with 1; try lra.
    + exists (t * (1#2)). pose proof (inject_Z_xO p).
      destruct r, s; cbn in *; split_ands; repeat split; try lia;
      try change (inject_Z 0) with 0; try change (inject_Z 1) with 1; try lra.
    + exists ((1 + t) * (1#2)). change (inject_Z 1) with 1. change (inject_Z 0) with 0.
      destruct r, s; cbn in *; split_ands; repeat split; try lia;
      try change (inject_Z 0) with 0; try change (inject_Z 1) with 1; try lra.
Qed.

Lemma iter_shr_1_spec p : ∀ mrs t,
  (0 <= shr_m mrs)%Z → located t (loc_of_shr_record mrs) →
  ∃ t', located t' (loc_of_shr_record (SpecFloat.iter_pos shr_1 p mrs))
        ∧ (0 <= shr_m (SpecFloat.iter_pos shr_1 p mrs))%Z
        ∧ inject_Z (shr_m mrs) + t
          == pow2 (Zpos p) * (inject_Z (shr_m (SpecFloat.iter_pos shr_1 p mrs)) + t').
Proof.
  induction p as [p IH|p IH|]; intros mrs t M L.
  - cbn [SpecFloat.iter_pos].
    destruct (shr_1_spec mrs t M L) as (t1 & L1 & M1 & E1).
    destruct (IH _ t1 M1 L1) as (t2 & L2 & M2 & E2).
    destruct (IH _ t2 M2 L2) as (t3 & L3 & M3 & E3).
    exists t3. split; [exact L3|]. split; [exact M3|].
    rewrite E1, E2, E3.
    replace (Zpos p~1) with (1 + Zpos p + Zpos p)%Z by lia.
    rewrite !pow2_add. change (pow2 1) with 2. ring.
  - cbn [SpecFloat.iter_pos].
    destruct (IH _ t M L) as (t2 & L2 & M2 & E2).
    destruct (IH _ t2 M2 L2) as (t3 & L3 & M3 & E3).
    exists t3. split; [exact L3|]. split; [exact M3|].
    rewrite E2, E3.
    replace (Zpos p~0) with (Zpos p + Zpos p)%Z by lia.
    rewrite !pow2_add. ring.
  - cbn [SpecFloat.iter_pos]. destruct (shr_1_spec mrs t M L) as (t1 & L1 & M1 & E1).
    exists t1. split; [exact L1|]. split; [exact M1|].
    rewrite E1. change (pow2 1) with 2. ring.
Qed.

Lemma fexp_normal e : (-1021 <= e)%Z → fexp prec emax e = (e - 53)%Z.
Proof. unfold fexp, emin, prec, emax. lia. Qed.

Lemma located_range t l : located t l → 0 <= t ∧ t < 1.
Proof. destruct l as [|[]]; simpl; intros; split_ands; split; lra. Qed.

(** The first shift of [binary_round_aux] brings a mantissa of at least
    53 bits to exactly 53 bits and keeps the to_Q. *)
Lemma shr_fexp_spec (p : positive) ex lx (t V : Q) :
  (2 ^ 52 <= Zpos p)%Z →
  located t lx →
  V == (inject_Z (Zpos p) + t) * pow2 ex →
  pow2 (-1022) <= V → V < pow2 1023 →
  ∃ mrs e1 t1,
    shr_fexp prec emax (Zpos p) ex lx = (mrs, e1)
    ∧ located t1 (loc_of_shr_record mrs)
    ∧ (2 ^ 52 <= shr_m mrs < 2 ^ 53)%Z
    ∧ V == (inject_Z (shr_m mrs) + t1) * pow2 e1
    ∧ (-1074 <= e1 <= 970)%Z.
Proof.
  intros P L E Lo Hi.
  pose proof (digits2_bounds p) as [D1 D2].
  set (d := Zpos (digits2_pos p)) in *.
  pose proof (located_range t lx L) as [T0 T1].
  assert (52 < d)%Z as D52.
  { apply (Z.pow_lt_mono_r_iff 2); lia. }
  assert (pow2 (d - 1 + ex) <= V) as V1.
  { rewrite E, pow2_add, (pow2_Z (d - 1)) by lia.
    pose proof (pow2_pos ex). rewrite Zle_Qle in D1. nra. }
  assert (V < pow2 (d + ex)) as V2.
  { rewrite E, pow2_add, (pow2_Z d) by lia.
    pose proof (pow2_pos ex).
    assert (inject_Z (Zpos p) + 1 <= inject_Z (2 ^ d)).
    { change 1 with (inject_Z 1). rewrite <- inject_Z_plus, <- Zle_Qle. lia. }
    nra. }
  assert (-1022 < d + ex)%Z as Xa by (apply pow2_lt_inv; lra).
  assert (d - 1 + ex < 1023)%Z as Xb by (apply pow2_lt_inv; lra).
  unfold shr_fexp. change (Zdigits2 (Zpos p)) with d.
  rewrite fexp_normal by lia.
  replace (d + ex - 53 - ex)%Z with (d - 53)%Z by lia.
  destruct (d - 53)%Z as [|n|n] eqn:N; [| |lia].
  - exists (shr_record_of_loc (Zpos p) lx), ex, t. cbn [shr].
    rewrite loc_of_record_of, shr_m_record_of.
    repeat split; try assumption; try lia.
    replace 53%Z with d by lia. exact D2.
  - cbn [shr].
    destruct (iter_shr_1_spec n (shr_record_of_loc (Zpos p) lx) t) as (t1 & L1 & M1 & E1).
    { rewrite shr_m_record_of. lia. }
    { rewrite loc_of_record_of. exact L. }
    rewrite shr_m_record_of in E1.
    set (mrs := SpecFloat.iter_pos shr_1 n _) in *.
    exists mrs, (ex + Zpos n)%Z, t1.
    pose proof (located_range t1 _ L1) as [T10 T11].
    assert (V == (inject_Z (shr_m mrs) + t1) * pow2 (ex + Z.pos n)) as EV.
    { rewrite E, E1, pow2_add. ring. }
    split; [reflexivity|]. split; [exact L1|].
    split; [|split; [exact EV | lia]].
    assert (pow2 (d - 1 + ex) == pow2 52 * pow2 (ex + Zpos n)) as A1.
    { rewrite <- pow2_add. replace (52 + (ex + Z.pos n))%Z with (d - 1 + ex)%Z by lia. reflexivity. }
    assert (pow2 (d + ex) == pow2 53 * pow2 (ex + Zpos n)) as A2.
    { rewrite <- pow2_add. replace (53 + (ex + Z.pos n))%Z with (d + ex)%Z by lia. reflexivity. }
    pose proof (pow2_pos (ex + Zpos n)) as PP.
    rewrite A1, EV in V1. rewrite A2 in V2. rewrite EV in V2.
    assert (pow2 52 < inject_Z (shr_m mrs) + 1) as B1 by nra.
    assert (inject_Z (shr_m mrs) < pow2 53) as B2 by nra.
    rewrite (pow2_Z 52) in B1 by lia. rewrite (pow2_Z 53) in B2 by lia.
    change 1 with (inject_Z 1) in B1. rewrite <- inject_Z_plus in B1.
    rewrite <- Zlt_Qlt in B1, B2. lia.
Qed.

Lemma round_nearest_even_spec m l t :
  located t l →
  (m <= round_nearest_even m l <= m + 1)%Z
  ∧ inject_Z (round_nearest_even m l) - (inject_Z m + t) <= 1#2
  ∧ (inject_Z m + t) - inject_Z (round_nearest_even m l) <= 1#2.
Proof.
  intros L.
  assert (inject_Z (m + 1) == inject_Z m + 1) as I by (rewrite inject_Z_plus; reflexivity).
  destruct l as [|[]]; cbn [round_nearest_even located] in *; split_ands.
  - split; [lia|]. lra.
  - destruct (Z.even m); (split; [lia|]); lra.
  - split; [lia|]. lra.
  - split; [lia|]. lra.
Qed.

(** The second shift of [binary_round_aux] renormalises a mantissa that
    rounding carried to [2^53]. *)
Lemma shr_fexp_carry m e :
  (2 ^ 52 <= m <= 2 ^ 53)%Z → (-1074 <= e)%Z →
  ∃ mrs e2 (q : positive),
    shr_fexp prec emax m e loc_Exact = (mrs, e2)
    ∧ shr_m mrs = Zpos q
    ∧ (e <= e2 <= e + 1)%Z
    ∧ (2 ^ 52 <= Zpos q < 2 ^ 53)%Z
    ∧ inject_Z (Zpos q) * pow2 e2 == inject_Z m * pow2 e.
Proof.
  intros M E.
  destruct m as [|p|p]; try lia.
  destruct (Z.eq_dec (Zpos p) (2 ^ 53)%Z) as [C|C].
  - assert (p = (2 ^ 53)%positive) as -> by lia. unfold shr_fexp.
    change (Zdigits2 (Zpos (2 ^ 53))) with 54%Z.
    rewrite fexp_normal by lia.
    replace (54 + e - 53 - e)%Z with 1%Z by lia.
    exists {| shr_m := Zpos (2 ^ 52); shr_r := false; shr_s := false |}, (e + 1)%Z,
           (2 ^ 52)%positive.
    split; [reflexivity|]. split; [reflexivity|].
    split; [lia|]. split; [lia|].
    rewrite pow2_add. change (pow2 1) with 2.
    change (inject_Z (Zpos (2 ^ 53))) with (inject_Z (Zpos (2 ^ 52)) * 2). ring.
  - unfold shr_fexp. cbn [Zdigits2].
    rewrite (digits2_unique p 53) by lia.
    rewrite fexp_normal by lia.
    replace (53 + e - 53 - e)%Z with 0%Z by lia.
    exists (shr_record_of_loc (Zpos p) loc_Exact), e, p.
    split; [reflexivity|]. split; [reflexivity|].
    split; [lia|]. split; [lia|]. reflexivity.
Qed.

(** Rounding a positive value of the normal range: the result is a
    finite number within relative distance [2^-53] of the to_Q. *)
Lemma binary_round_aux_spec sx (p : positive) ex lx (t V : Q) :
  (2 ^ 52 <= Zpos p)%Z →
  located t lx →
  V == (inject_Z (Zpos p) + t) * pow2 ex →
  pow2 (-1022) <= V → V < pow2 1023 →
  ∃ m e,
    binary_round_aux prec emax sx (Zpos p) ex lx = S754_finite sx m e
    ∧ V * (1 - pow2 (-53)) <= inject_Z (Zpos m) * pow2 e
    ∧ inject_Z (Zpos m) * pow2 e <= V * (1 + pow2 (-53)).
Proof.
  intros P L E Lo Hi.
  destruct (shr_fexp_spec p ex lx t V P L E Lo Hi) as (mrs & e1 & t1 & S1 & L1 & M1 & E1 & Xa).
  unfold binary_round_aux. rewrite S1.
  destruct (round_nearest_even_spec (shr_m mrs) _ t1 L1) as (R1 & R2 & R3).
  set (m2 := round_nearest_even (shr_m mrs) (loc_of_shr_record mrs)) in *.
  destruct (shr_fexp_carry m2 e1) as (mrs2 & e2 & q & S2 & Q2 & Xb & Q3 & E2); [lia|lia|].
  rewrite S2, Q2.
  replace (e2 <=? emax - prec)%Z with true
    by (symmetry; apply Z.leb_le; unfold emax, prec; lia).
  exists q, e2. split; [reflexivity|].
  rewrite E2, E1.
  pose proof (pow2_pos e1) as PP.
  pose proof (located_range t1 _ L1) as [T0 T1].
  assert (pow2 52 <= inject_Z (shr_m mrs)) as B.
  { rewrite (pow2_Z 52) by lia. rewrite <- Zle_Qle. lia. }
  assert (pow2 (-53) * pow2 52 == 1#2) as H by reflexivity.
  assert (0 < pow2 (-53)) as U by apply pow2_pos.
  revert R2 R3 PP T0 B H U.
  generalize (pow2 (-53)) (pow2 52) (pow2 e1) (inject_Z (shr_m mrs)) (inject_Z m2).
  intros r k w b a R2 R3 PP T0 B H U.
  assert (1#2 <= r * b) as H1 by nra.
  assert (0 <= r * t1) as H2 by nra.
  assert ((b + t1) * (1 - r) <= a) as H3 by nra.
  assert (a <= (b + t1) * (1 + r)) as H4 by nra.
  split.
  - apply Qle_trans with ((b + t1) * (1 - r) * w).
    + apply Qle_lteq. right. ring.
    + apply Qmult_le_compat_r; [exact H3 | lra].
  - apply Qle_trans with ((b + t1) * (1 + r) * w).
    + apply Qmult_le_compat_r; [exact H4 | lra].
    + apply Qle_lteq. right. ring.
Qed.

(** Left shifts keep the value. *)
Lemma iter_xO m d : Zpos (Pos.iter xO m d) = (Zpos m * 2 ^ Zpos d)%Z.
Proof.
  induction d as [|d IH] using Pos.peano_ind.
  - simpl. lia.
  - rewrite Pos.iter_succ, Pos2Z.inj_xO, IH, Pos2Z.inj_succ, Z.pow_succ_r by lia. lia.
Qed.

Lemma shl_align_spec m e e' :
  inject_Z (Zpos (fst (shl_align m e e'))) * pow2 (snd (shl_align m e e'))
  == inject_Z (Zpos m) * pow2 e
  ∧ snd (shl_align m e e') = Z.min e e'
  ∧ Zpos (fst (shl_align m e e')) = (Zpos m * 2 ^ (e - Z.min e e'))%Z.
Proof.
  unfold shl_align. destruct (e' - e)%Z as [|d|d] eqn:D; cbn [fst snd].
  - split; [reflexivity|]. split; [lia|]. replace (e - Z.min e e')%Z with 0%Z by lia. lia.
  - split; [reflexivity|]. split; [lia|]. replace (e - Z.min e e')%Z with 0%Z by lia. lia.
  - rewrite iter_xO. split; [|split; [lia|]].
    + assert (pow2 e == pow2 (Zpos d) * pow2 e') as A.
      { rewrite <- pow2_add. replace (Zpos d + e')%Z with e by lia. reflexivity. }
      rewrite A, (pow2_Z (Zpos d)), inject_Z_mult by lia. ring.
    + replace (e - Z.min e e')%Z with (Zpos d) by lia. reflexivity.
Qed.

Lemma new_location_spec (n : positive) (r : Z) :
  (0 <= r < Zpos n)%Z → located (r # n) (new_location (Zpos n) r).
Proof.
  intros [R0 R1]. unfold new_location, new_location_even, new_location_odd.
  destruct (Z.even (Zpos n)) eqn:Ev; destruct (Z.eqb_spec r 0) as [->|NZ]; try reflexivity.
  - destruct (Z.compare_spec (2 * r) (Zpos n)) as [C|C|C];
      unfold located, Qlt, Qeq; cbn [Qnum Qden]; lia.
  - assert (2 * r ≠ Zpos n)%Z as Odd.
    { intros C. rewrite <- C, Z.even_mul in Ev. discriminate Ev. }
    destruct (Z.compare_spec (2 * r + 1) (Zpos n)) as [C|C|C];
      unfold located, Qlt, Qeq; cbn [Qnum Qden]; lia.
Qed.

Lemma to_Q_lt_digits m e :
  to_Q (S754_finite false m e) < pow2 (Zpos (digits2_pos m) + e).
Proof.
  cbn [to_Q]. pose proof (digits2_bounds m) as [_ D]. rewrite Zlt_Qlt in D.
  rewrite pow2_add, (pow2_Z (Zpos (digits2_pos m))) by lia.
  pose proof (pow2_pos e). nra.
Qed.

Lemma fexp_subnormal e : (e <= -1021)%Z → fexp prec emax e = (-1074)%Z.
Proof. unfold fexp, emin, prec, emax. lia. Qed.

Lemma to_Q_ge_digits (p : positive) (t : Q) e :
  0 <= t → pow2 (Zpos (digits2_pos p) - 1 + e) <= (inject_Z (Zpos p) + t) * pow2 e.
Proof.
  intros T. pose proof (digits2_bounds p) as [D _]. rewrite Zle_Qle in D.
  rewrite pow2_add, (pow2_Z (Zpos (digits2_pos p) - 1)) by lia.
  pose proof (pow2_pos e). nra.
Qed.

(** Below the normal range the first shift of [binary_round_aux] brings
    the exponent to [-1074] and keeps the value. *)
Lemma shr_fexp_subnormal (mx : Z) ex lx (t V : Q) :
  (0 <= mx)%Z →
  located t lx →
  V == (inject_Z mx + t) * pow2 ex →
  V < pow2 (-1022) → (ex <= -1074)%Z →
  ∃ mrs t1,
    shr_fexp prec emax mx ex lx = (mrs, (-1074)%Z)
    ∧ located t1 (loc_of_shr_record mrs)
    ∧ (0 <= shr_m mrs < 2 ^ 52)%Z
    ∧ V == (inject_Z (shr_m mrs) + t1) * pow2 (-1074).
Proof.
  intros M L E Hi X.
  pose proof (located_range t lx L) as [T0 T1].
  assert (fexp prec emax (Zdigits2 mx + ex) = (-1074)%Z) as F.
  { apply fexp_subnormal. destruct mx as [|p|p]; [cbn [Zdigits2]; lia | | lia].
    cbn [Zdigits2]. pose proof (to_Q_ge_digits p t ex T0) as G. rewrite <- E in G.
    assert (Zpos (digits2_pos p) - 1 + ex < -1022)%Z by (apply pow2_lt_inv; lra). lia. }
  unfold shr_fexp. rewrite F.
  assert (∃ mrs t1, shr (shr_record_of_loc mx lx) ex (-1074 - ex) = (mrs, (-1074)%Z)
                    ∧ located t1 (loc_of_shr_record mrs) ∧ (0 <= shr_m mrs)%Z
                    ∧ V == (inject_Z (shr_m mrs) + t1) * pow2 (-1074)) as (mrs & t1 & S1 & L1 & M1 & E1).
  { destruct (-1074 - ex)%Z as [|n|n] eqn:N; [| |lia].
    - exists (shr_record_of_loc mx lx), t. cbn [shr].
      rewrite loc_of_record_of, shr_m_record_of.
      replace ex with (-1074)%Z in * by lia. repeat split; assumption.
    - cbn [shr].
      destruct (iter_shr_1_spec n (shr_record_of_loc mx lx) t) as (t1 & L1 & M1 & E1).
      { rewrite shr_m_record_of. exact M. }
      { rewrite loc_of_record_of. exact L. }
      rewrite shr_m_record_of in E1.
      eexists _, t1. split; [f_equal; lia|]. split; [exact L1|]. split; [exact M1|].
      rewrite E, E1.
      assert (pow2 (-1074) == pow2 (Zpos n) * pow2 ex) as P.
      { rewrite <- pow2_add. replace (Zpos n + ex)%Z with (-1074)%Z by lia. reflexivity. }
      rewrite P. ring. }
  exists mrs, t1. split; [exact S1|]. split; [exact L1|]. split; [|exact E1].
  split; [exact M1|].
  pose proof (located_range t1 _ L1) as [T10 T11].
  assert (pow2 (-1022) == pow2 52 * pow2 (-1074)) as P by reflexivity.
  rewrite P, E1 in Hi. pose proof (pow2_pos (-1074)) as PP.
  assert (inject_Z (shr_m mrs) < pow2 52) as B by nra.
  rewrite (pow2_Z 52) in B by lia. rewrite <- Zlt_Qlt in B. exact B.
Qed.

Lemma shr_fexp_subnormal_carry m :
  (0 <= m <= 2 ^ 52)%Z →
  shr_fexp prec emax m (-1074) loc_Exact = (shr_record_of_loc m loc_Exact, (-1074)%Z).
Proof.
  intros M. unfold shr_fexp.
  assert (fexp prec emax (Zdigits2 m + -1074) = (-1074)%Z) as F.
  { apply fexp_subnormal. destruct m as [|p|p]; [cbn [Zdigits2]; lia | | lia].
    cbn [Zdigits2]. pose proof (digits2_bounds p) as [D _].
    assert (Zpos (digits2_pos p) - 1 < 53)%Z by (apply (Z.pow_lt_mono_r_iff 2); lia). lia. }
  rewrite F. reflexivity.
Qed.

(** Rounding a value below the normal range: the result is zero or a
    positive finite number within 2^-1075 of the value. *)
Lemma binary_round_aux_subnormal (mx : Z) ex lx (t V : Q) :
  (0 <= mx)%Z →
  located t lx →
  V == (inject_Z mx + t) * pow2 ex →
  V < pow2 (-1022) → (ex <= -1074)%Z →
  let x := binary_round_aux prec emax false mx ex lx in
  (x = S754_zero false ∨ ∃ m e, x = S754_finite false m e)
  ∧ V - pow2 (-1075) <= to_Q x ∧ to_Q x <= V + pow2 (-1075).
Proof.
  intros M L E Hi X x.
  destruct (shr_fexp_subnormal mx ex lx t V M L E Hi X) as (mrs & t1 & S1 & L1 & M1 & E1).
  unfold x, binary_round_aux. rewrite S1.
  destruct (round_nearest_even_spec (shr_m mrs) _ t1 L1) as (R1 & R2 & R3).
  set (m2 := round_nearest_even (shr_m mrs) (loc_of_shr_record mrs)) in *.
  rewrite (shr_fexp_subnormal_carry m2) by lia.
  cbn [shr_record_of_loc shr_m].
  assert (pow2 (-1075) == (1#2) * pow2 (-1074)) as P by reflexivity.
  pose proof (pow2_pos (-1074)) as PP.
  destruct m2 as [|q|q] eqn:Q; [| |lia].
  - split; [left; reflexivity|]. cbn [to_Q]. change (inject_Z 0) with 0 in R2, R3.
    rewrite E1, P. split; nra.
  - replace (-1074 <=? emax - prec)%Z with true by reflexivity.
    split; [right; exists q, (-1074)%Z; reflexivity|]. cbn [to_Q].
    rewrite E1, P. split; nra.
Qed.

Lemma digits_ge_53 p : (2 ^ 52 <= Zpos p)%Z → (53 <= Zpos (digits2_pos p))%Z.
Proof.
  intros P. pose proof (digits2_bounds p) as [_ D].
  assert (52 < Zpos (digits2_pos p))%Z by (apply (Z.pow_lt_mono_r_iff 2); lia). lia.
Qed.

Lemma binary_round_aux_any (mx : Z) ex lx (t V : Q) :
  (0 <= mx)%Z →
  located t lx →
  V == (inject_Z mx + t) * pow2 ex →
  V < pow2 1023 →
  (pow2 (-1022) <= V → (2 ^ 52 <= mx)%Z) →
  (V < pow2 (-1022) → (ex <= -1074)%Z) →
  rounds_to V (binary_round_aux prec emax false mx ex lx).
Proof.
  intros M L E Hi N S.
  pose proof (located_range t lx L) as [T0 T1].
  assert (0 <= V) as VP.
  { rewrite E. pose proof (pow2_pos ex).
    assert (0 <= inject_Z mx) by (change 0 with (inject_Z 0); rewrite <- Zle_Qle; exact M).
    nra. }
  pose proof (pow2_pos (-53)) as U. pose proof (pow2_pos (-1075)) as H.
  destruct (Qlt_le_dec V (pow2 (-1022))) as [C|C].
  - destruct (binary_round_aux_subnormal mx ex lx t V M L E C (S C)) as (Z & B1 & B2).
    split; [exact Z|]. split; nra.
  - specialize (N C). destruct mx as [|p|p]; try lia.
    destruct (binary_round_aux_spec false p ex lx t V N L E C Hi) as (m & e & R & B1 & B2).
    rewrite R. split; [right; exists m, e; reflexivity|]. cbn [to_Q]. split; lra.
Qed.

Lemma SFmul_any mx ex my ey :
  (2 ^ 52 <= Zpos (mx * my))%Z →
  let V := to_Q (S754_finite false mx ex) * to_Q (S754_finite false my ey) in
  V < pow2 1023 →
  rounds_to V (SFmul prec emax (S754_finite false mx ex) (S754_finite false my ey)).
Proof.
  intros P V Hi. cbn [SFmul xorb].
  assert (V == (inject_Z (Zpos (mx * my)) + 0) * pow2 (ex + ey)) as E.
  { unfold V, to_Q. rewrite Pos2Z.inj_mul, inject_Z_mult, pow2_add. ring. }
  apply (binary_round_aux_any _ _ _ 0 V); try assumption; try lia; try reflexivity.
  intros C. pose proof (to_Q_ge_digits (mx * my) 0 (ex + ey) ltac:(lra)) as G.
  rewrite <- E in G. pose proof (digits_ge_53 _ P).
  assert (Zpos (digits2_pos (mx * my)) - 1 + (ex + ey) < -1022)%Z by (apply pow2_lt_inv; lra).
  lia.
Qed.

Lemma SFadd_any mx ex my ey :
  let V := to_Q (S754_finite false mx ex) + to_Q (S754_finite false my ey) in
  V < pow2 1023 →
  rounds_to V (SFadd prec emax (S754_finite false mx ex) (S754_finite false my ey)).
Proof.
  intros V Hi. cbn [SFadd cond_Zopp].
  set (ez := Z.min ex ey).
  destruct (shl_align_spec mx ex ez) as (A1 & A2 & _).
  destruct (shl_align_spec my ey ez) as (B1 & B2 & _).
  replace (snd (shl_align mx ex ez)) with ez in A1 by lia.
  replace (snd (shl_align my ey ez)) with ez in B1 by lia.
  set (mx' := fst (shl_align mx ex ez)) in *.
  set (my' := fst (shl_align my ey ez)) in *.
  change (Zpos mx' + Zpos my')%Z with (Zpos (mx' + my')).
  cbn [binary_normalize]. unfold binary_round.
  set (M := (mx' + my')%positive).
  assert (V == inject_Z (Zpos M) * pow2 ez) as EV.
  { unfold V, to_Q, M. rewrite Pos2Z.inj_add, inject_Z_plus, <- A1, <- B1. ring. }
  pose proof (digits2_bounds M) as [D1 D2].
  pose proof (to_Q_ge_digits M 0 ez ltac:(lra)) as V1.
  set (d := Zpos (digits2_pos M)) in *.
  set (f := fexp prec emax (d + ez)).
  destruct (shl_align_spec M ez f) as (C1 & C2 & C3).
  destruct (shl_align M ez f) as [mz ez'] eqn:S. cbn [fst snd] in *.
  apply (binary_round_aux_any _ _ _ 0 V); try lia; try reflexivity; try assumption.
  - rewrite EV, <- C1. ring.
  - intros C.
    assert (-1022 < d + ez)%Z as Xa.
    { apply pow2_lt_inv. pose proof (to_Q_lt_digits M ez) as U. cbn [to_Q] in U.
      fold d in U. rewrite EV in C. lra. }
    assert (f = d + ez - 53)%Z as F by (unfold f; apply fexp_normal; lia).
    rewrite C3, F. destruct (Z_le_gt_dec 53 d) as [G|G].
    + replace (ez - Z.min ez (d + ez - 53))%Z with 0%Z by lia.
      assert (2 ^ 52 <= 2 ^ (d - 1))%Z by (apply Z.pow_le_mono_r; lia). lia.
    + replace (ez - Z.min ez (d + ez - 53))%Z with (53 - d)%Z by lia.
      replace (2 ^ 52)%Z with (2 ^ (d - 1) * 2 ^ (53 - d))%Z
        by (rewrite <- Z.pow_add_r by lia; f_equal; lia).
      apply Z.mul_le_mono_nonneg_r; [apply Z.pow_nonneg; lia | exact D1].
  - intros C.
    assert (d - 1 + ez < -1022)%Z as Xa.
    { apply pow2_lt_inv. rewrite EV in C.
      assert ((inject_Z (Zpos M) + 0) * pow2 ez == inject_Z (Zpos M) * pow2 ez) as K by ring.
      rewrite K in V1. lra. }
    assert (f = -1074)%Z as F by (unfold f; apply fexp_subnormal; lia).
    lia.
Qed.

Lemma SFdiv_core_any mx ex my ey :
  ∃ (q : Z) e' l t,
    SFdiv_core_binary prec emax (Zpos mx) ex (Zpos my) ey = (q, e', l)
    ∧ located t l
    ∧ (0 <= q)%Z
    ∧ (e' <= fexp prec emax (Zpos (digits2_pos mx) + ex - (Zpos (digits2_pos my) + ey)))%Z
    ∧ inject_Z (Zpos mx) * pow2 ex
      == (inject_Z q + t) * pow2 e' * (inject_Z (Zpos my) * pow2 ey).
Proof.
  unfold SFdiv_core_binary. cbn [Zdigits2].
  set (f := fexp prec emax (Zpos (digits2_pos mx) + ex - (Zpos (digits2_pos my) + ey))).
  set (e' := Z.min f (ex - ey)).
  set (s := (ex - ey - e')%Z).
  assert (0 <= s)%Z as S0 by lia.
  set (m' := match s with Zpos _ => Z.shiftl (Zpos mx) s | Z0 => Zpos mx | Zneg _ => 0%Z end).
  assert (m' = Zpos mx * 2 ^ s)%Z as M'.
  { unfold m'. destruct s as [|k|k]; [lia | apply Z.shiftl_mul_pow2; lia | lia]. }
  clearbody m'.
  pose proof (Z_div_mod m' (Zpos my) ltac:(lia)) as DM.
  destruct (Z.div_eucl m' (Zpos my)) as [q r]. destruct DM as [DM R].
  assert (0 <= q)%Z as Q.
  { assert (0 <= m')%Z by (rewrite M'; apply Z.mul_nonneg_nonneg; [lia | apply Z.pow_nonneg; lia]).
    nia. }
  exists q, e', (new_location (Zpos my) r), (r # my).
  split; [reflexivity|]. split; [apply new_location_spec; lia|]. split; [exact Q|].
  split; [lia|].
  assert (pow2 ex == pow2 s * pow2 e' * pow2 ey) as PE.
  { rewrite <- !pow2_add. replace (s + e' + ey)%Z with ex by lia. reflexivity. }
  rewrite PE, (pow2_Z s) by lia.
  assert (inject_Z (Zpos mx) * inject_Z (2 ^ s)
          == (inject_Z q + (r # my)) * inject_Z (Zpos my)) as K.
  { rewrite <- inject_Z_mult, <- M', DM. unfold Qeq. simpl. nia. }
  assert (inject_Z (Z.pos mx) * (inject_Z (2 ^ s) * pow2 e' * pow2 ey)
          == (inject_Z (Zpos mx) * inject_Z (2 ^ s)) * (pow2 e' * pow2 ey)) as K2 by ring.
  rewrite K2, K. ring.
Qed.

Lemma SFdiv_any mx ex my ey (V : Q) :
  to_Q (S754_finite false mx ex) == V * to_Q (S754_finite false my ey) →
  V < pow2 1023 →
  rounds_to V (SFdiv prec emax (S754_finite false mx ex) (S754_finite false my ey)).
Proof.
  intros EV Hi. cbn [SFdiv xorb].
  destruct (SFdiv_core_any mx ex my ey) as (q & e' & l & t & C & L & Q & F & K).
  rewrite C.
  set (E := (Zpos (digits2_pos mx) + ex - (Zpos (digits2_pos my) + ey))%Z) in *.
  pose proof (pow2_pos ey) as PY.
  assert (0 < inject_Z (Zpos my)) as MY by (change 0 with (inject_Z 0); rewrite <- Zlt_Qlt; lia).
  assert (0 < to_Q (S754_finite false my ey)) as YP by (cbn [to_Q]; nra).
  assert (V == (inject_Z q + t) * pow2 e') as EV'.
  { cbn [to_Q] in EV, YP. rewrite K in EV.
    symmetry. apply (Qmult_inj_r _ _ (inject_Z (Zpos my) * pow2 ey)); [lra | exact EV]. }
  pose proof (located_range t l L) as [T0 T1].
  assert (pow2 (E - 1) <= V) as VE.
  { pose proof (to_Q_ge_digits mx 0 ex ltac:(lra)) as Xa.
    pose proof (to_Q_lt_digits my ey) as Y1.
    assert ((inject_Z (Zpos mx) + 0) * pow2 ex == to_Q (S754_finite false mx ex)) as K1
      by (cbn [to_Q]; ring).
    rewrite K1, EV in Xa.
    assert (pow2 (Zpos (digits2_pos mx) - 1 + ex)
            == pow2 (E - 1) * pow2 (Zpos (digits2_pos my) + ey)) as P.
    { rewrite <- pow2_add. unfold E.
      replace (Zpos (digits2_pos mx) + ex - (Zpos (digits2_pos my) + ey) - 1
               + (Zpos (digits2_pos my) + ey))%Z
        with (Zpos (digits2_pos mx) - 1 + ex)%Z by lia. reflexivity. }
    rewrite P in Xa. pose proof (pow2_pos (E - 1)).
    pose proof (pow2_pos (Zpos (digits2_pos my) + ey)).
    destruct (Qlt_le_dec V (pow2 (E - 1))) as [B|B]; [exfalso; nra | exact B]. }
  apply (binary_round_aux_any q e' l t V Q L EV' Hi).
  - intros N.
    assert (pow2 (52 + e') <= V) as B.
    { destruct (Z_le_gt_dec (-1021) E) as [G|G].
      - rewrite fexp_normal in F by exact G.
        apply Qle_trans with (pow2 (E - 1)); [apply pow2_le; lia | exact VE].
      - rewrite fexp_subnormal in F by lia.
        apply Qle_trans with (pow2 (-1022)); [apply pow2_le; lia | exact N]. }
    rewrite EV', pow2_add, (pow2_Z 52) in B by lia.
    pose proof (pow2_pos e') as PE.
    assert (inject_Z (2 ^ 52) < inject_Z q + 1) as B2 by nra.
    change 1 with (inject_Z 1) in B2. rewrite <- inject_Z_plus, <- Zlt_Qlt in B2. lia.
  - intros S.
    assert (E - 1 < -1022)%Z by (apply pow2_lt_inv; lra).
    rewrite fexp_subnormal in F by lia. exact F.
Qed.

Lemma nonneg_to_Q x : nonneg x → 0 <= to_Q x.
Proof.
  intros [->|(m & e & ->)]; cbn [to_Q]; [lra|].
  pose proof (pow2_pos e).
  assert (0 < inject_Z (Zpos m)) by (change 0 with (inject_Z 0); rewrite <- Zlt_Qlt; lia).
  nra.
Qed.

(** The three operations on non-negative numbers. *)
Lemma mul_nonneg x mc ec :
  nonneg x → (2 ^ 52 <= Zpos mc)%Z →
  to_Q x * to_Q (S754_finite false mc ec) < pow2 1023 →
  rounds_to (to_Q x * to_Q (S754_finite false mc ec))
    (SFmul prec emax x (S754_finite false mc ec)).
Proof.
  intros [->|(m & e & ->)] C Hi.
  - cbn [SFmul xorb]. change (to_Q (S754_zero false)) with 0.
    pose proof (pow2_pos (-1075)). split; [left; reflexivity|].
    change (to_Q (S754_zero false)) with 0. split; lra.
  - apply SFmul_any; [|exact Hi]. rewrite Pos2Z.inj_mul. nia.
Qed.

Lemma div_nonneg x mc ec (V : Q) :
  nonneg x →
  to_Q x == V * to_Q (S754_finite false mc ec) →
  V < pow2 1023 →
  rounds_to V (SFdiv prec emax x (S754_finite false mc ec)).
Proof.
  intros [->|(m & e & ->)] EV Hi.
  - cbn [SFdiv xorb]. change (to_Q (S754_zero false)) with 0 in EV.
    pose proof (pow2_pos (-1075)). pose proof (pow2_pos ec).
    assert (0 < inject_Z (Zpos mc)) by (change 0 with (inject_Z 0); rewrite <- Zlt_Qlt; lia).
    cbn [to_Q] in EV.
    assert (V == 0) as V0.
    { apply (Qmult_inj_r _ _ (inject_Z (Zpos mc) * pow2 ec)); [nra|]. rewrite <- EV. ring. }
    split; [left; reflexivity|]. change (to_Q (S754_zero false)) with 0.
    rewrite V0. split; lra.
  - apply SFdiv_any; assumption.
Qed.

Lemma add_nonneg x y :
  nonneg x → nonneg y →
  to_Q x + to_Q y < pow2 1023 →
  rounds_to (to_Q x + to_Q y) (SFadd prec emax x y).
Proof.
  intros Nx Ny Hi.
  pose proof (pow2_pos (-53)). pose proof (pow2_pos (-1075)).
  pose proof (nonneg_to_Q x Nx). pose proof (nonneg_to_Q y Ny).
  destruct Nx as [->|(mx & ex & ->)], Ny as [->|(my & ey & ->)].
  - cbn [SFadd]. split; [left; reflexivity|].
    change (to_Q (S754_zero false)) with 0. split; lra.
  - cbn [SFadd]. split; [right; exists my, ey; reflexivity|].
    change (to_Q (S754_zero false)) with 0 in *. split; nra.
  - cbn [SFadd]. split; [right; exists mx, ex; reflexivity|].
    change (to_Q (S754_zero false)) with 0 in *. split; nra.
  - apply SFadd_any. exact Hi.
Qed.

End Rounding.

(** ** The smoothing filter in float64 *)

Section SmoothingBounds.
Import Weather IEEE Real Observe Stated.
Local Open Scope Q_scope.

Lemma smooth_n_outer {F : Type} `{Number F} n (avg s : F) :
  smooth_n (S n) avg s = smooth (smooth_n n avg s) s.
Proof.
  revert avg. induction n as [|n IH]; intros avg; [reflexivity|].
  change (smooth_n (S (S n)) avg s) with (smooth_n (S n) (smooth avg s) s).
  rewrite IH. reflexivity.
Qed.

Lemma Run_wind_constant {F : Type} `{Number F} (cfg : @Config F) st ev s n :
  reading_of cfg KWind "speed" ev s →
  crash (Run cfg st (replicate n (EventIn ev))) = None
  ∧ avgWind (final (Run cfg st (replicate n (EventIn ev)))) = smooth_n n (avgWind st) s.
Proof.
  intros Hr. revert st. induction n as [|n IH]; intros st; [split; reflexivity|].
  change (replicate (S n) (EventIn ev)) with (EventIn ev :: replicate n (EventIn ev)).
  rewrite (Run_cons_ret cfg st (EventIn ev) _ _ _ (checkEvent_wind cfg st ev s Hr)).
  destruct (IH (set_avgWind (smooth (avgWind st) s) st)) as [C A].
  split; [exact C | exact A].
Qed.

Lemma lit_consts :
  @lit float64 _ 39 = c39 ∧ @lit float64 _ 40 = c40 ∧ @lit float64 _ 1 = c1
  ∧ @lit float64 _ 0 = S754_zero false.
Proof. repeat split; vm_compute; reflexivity. Qed.

Lemma smooth_unfold (a s : float64) :
  smooth a s
  = SFadd prec emax (SFdiv prec emax (SFmul prec emax a c39) c40)
      (SFdiv prec emax (SFmul prec emax s c1) c40).
Proof. reflexivity. Qed.

Ltac numerals :=
  change (pow2 (-53)) with unit_roundoff in *; change (pow2 (-46)) with slack46 in *;
  change (pow2 (-50)) with slack50 in *; change (pow2 (-44)) with slack44 in *;
  change (pow2 1023) with huge in *; change (pow2 1010) with high10 in *;
  change (pow2 1000) with high0 in *;
  change (pow2 (-1075)) with half_step in *; change (pow2 (-1073)) with abs73 in *;
  change (pow2 (-1067)) with abs67 in *; change (pow2 (-1072)) with abs72 in *;
  change (pow2 (-1066)) with abs66 in *;
  unfold unit_roundoff, slack46, slack50, slack44, huge, high10, high0,
    half_step, abs73, abs67, abs72, abs66 in *.

Lemma ordinary_spec (x : float64) :
  ordinary x = true → nonneg x ∧ to_Q x < pow2 1000.
Proof.
  destruct x as [[]| | |[] m e]; try discriminate; intros H.
  - split; [left; reflexivity|]. apply pow2_pos.
  - apply Z.leb_le in H. split; [right; exists m, e; reflexivity|].
    eapply Qlt_le_trans; [apply to_Q_lt_digits|]. apply pow2_le. exact H.
Qed.

(** One update: the result is the exact convex combination up to three
    roundings and an absolute 2^-1073. *)
Lemma smooth_any (a s : float64) :
  nonneg a → nonneg s →
  to_Q a <= pow2 1010 → to_Q s <= pow2 1010 →
  nonneg (smooth a s)
  ∧ (to_Q a * (39#40) + to_Q s * (1#40))
      * ((1 - unit_roundoff) * (1 - unit_roundoff) * (1 - unit_roundoff)) - pow2 (-1073)
    <= to_Q (smooth a s)
  ∧ to_Q (smooth a s)
    <= (to_Q a * (39#40) + to_Q s * (1#40))
         * ((1 + unit_roundoff) * (1 + unit_roundoff) * (1 + unit_roundoff)) + pow2 (-1073).
Proof.
  intros Na Ns A1 S1. rewrite smooth_unfold.
  pose proof (nonneg_to_Q a Na) as A0. pose proof (nonneg_to_Q s Ns) as S0.
  assert (to_Q c39 == 39) as V39 by reflexivity.
  assert (to_Q c40 == 40) as V40 by reflexivity.
  assert (to_Q c1 == 1) as V1 by reflexivity.
  destruct (mul_nonneg a 5488762045857792 (-47) Na) as (Np & P1 & P2); [lia | |].
  { fold c39. rewrite V39. numerals. lra. }
  fold c39 in Np, P1, P2. rewrite V39 in P1, P2.
  set (p := SFmul prec emax a c39) in *.
  destruct (div_nonneg p 5629499534213120 (-47) (to_Q p * (1#40)) Np) as (Nq & Q1 & Q2).
  { fold c40. rewrite V40. ring. }
  { numerals. lra. }
  fold c40 in Nq, Q1, Q2.
  set (q := SFdiv prec emax p c40) in *.
  destruct (mul_nonneg s 4503599627370496 (-52) Ns) as (Nr & R1 & R2); [lia | |].
  { fold c1. rewrite V1. numerals. lra. }
  fold c1 in Nr, R1, R2. rewrite V1 in R1, R2.
  set (r := SFmul prec emax s c1) in *.
  destruct (div_nonneg r 5629499534213120 (-47) (to_Q r * (1#40)) Nr) as (Nt & T1 & T2).
  { fold c40. rewrite V40. ring. }
  { numerals. lra. }
  fold c40 in Nt, T1, T2.
  set (t := SFdiv prec emax r c40) in *.
  destruct (add_nonneg q t Nq Nt) as (Nx & Xa & Xb).
  { numerals. lra. }
  split; [exact Nx|].
  revert A0 A1 S0 S1 P1 P2 Q1 Q2 R1 R2 T1 T2 Xa Xb.
  generalize (to_Q (SFadd prec emax q t)) (to_Q t) (to_Q r) (to_Q q) (to_Q p) (to_Q a) (to_Q s).
  intros. numerals. split; lra.
Qed.

Lemma step_bounds_any (lo hi A Sv A' : Q) :
  0 <= lo → lo <= Sv → Sv <= hi → 0 <= A →
  lo * (1 - slack46) - abs67 <= A → A <= hi * (1 + slack46) + abs67 →
  (A * (39#40) + Sv * (1#40))
    * ((1 - unit_roundoff) * (1 - unit_roundoff) * (1 - unit_roundoff)) - abs73 <= A' →
  A' <= (A * (39#40) + Sv * (1#40))
          * ((1 + unit_roundoff) * (1 + unit_roundoff) * (1 + unit_roundoff)) + abs73 →
  lo * (1 - slack46) - abs67 <= A' ∧ A' <= hi * (1 + slack46) + abs67
  ∧ Qabs (A' - Sv) <= (39#40) * Qabs (A - Sv) + slack50 * hi + abs72.
Proof.
  intros L0 L1 L2 AP A0 A1 B0 B1. unfold slack46, unit_roundoff, slack50, abs67, abs73, abs72 in *.
  split; [lra|]. split; [lra|].
  pose proof (Qle_Qabs (A - Sv)) as D1.
  pose proof (Qle_Qabs (- (A - Sv))) as D2. rewrite Qabs_opp in D2.
  assert (Qabs (A - Sv) <= hi * (1 + slack46) + abs67) as D3.
  { apply Qabs_Qle_condition. unfold slack46, abs67. split; lra. }
  unfold slack46, abs67 in D3.
  apply Qabs_Qle_condition.
  set (D := Qabs (A - Sv)) in *. clearbody D.
  split; lra.
Qed.

Lemma about_step lo hi (a s : float64) :
  0 <= lo → hi <= pow2 1000 →
  nonneg s → lo <= to_Q s → to_Q s <= hi →
  about lo hi a →
  about lo hi (smooth a s)
  ∧ Qabs (to_Q (smooth a s) - to_Q s)
    <= (39#40) * Qabs (to_Q a - to_Q s) + pow2 (-50) * hi + pow2 (-1072).
Proof.
  intros L H Ns S0 S1 (Na & A0 & A1).
  pose proof (nonneg_to_Q a Na) as AP.
  destruct (smooth_any a s Na Ns) as (Nx & B0 & B1); try (numerals; lra).
  destruct (step_bounds_any lo hi (to_Q a) (to_Q s) (to_Q (smooth a s)))
    as (C0 & C1 & C2); try assumption; try (numerals; lra).
  split; [split; [exact Nx|]; split; numerals; lra | numerals; lra].
Qed.

Lemma about_n lo hi (s : float64) :
  0 <= lo → hi <= pow2 1000 →
  nonneg s → lo <= to_Q s → to_Q s <= hi →
  ∀ n (a : float64),
    about lo hi a →
    about lo hi (smooth_n n a s)
    ∧ Qabs (to_Q (smooth_n (S n) a s) - to_Q s)
      <= (39#40) * Qabs (to_Q (smooth_n n a s) - to_Q s) + pow2 (-50) * hi + pow2 (-1072).
Proof.
  intros L H Ns S0 S1 n. induction n as [|n IH]; intros a N.
  - change (smooth_n 0 a s) with a. change (smooth_n 1 a s) with (smooth a s).
    split; [exact N|]. apply (about_step lo hi a s); assumption.
  - change (smooth_n (S n) a s) with (smooth_n n (smooth a s) s).
    change (smooth_n (S (S n)) a s) with (smooth_n (S n) (smooth a s) s).
    apply IH. apply (about_step lo hi a s); assumption.
Qed.

Lemma nonneg_is_number (x : float64) : nonneg x → is_number x = true.
Proof. intros [->|(m & e & ->)]; reflexivity. Qed.

(** A distance that shrinks by 39/40 per step, up to a constant [c/40],
    comes below [c] plus any positive amount. *)
Lemma contraction_rate (d : nat → Q) (c : Q) :
  (∀ n, d (S n) <= (39#40) * d n + c * (1#40)) →
  ∀ n, (d n - c) * (39 + inject_Z (Z.of_nat n)) <= 39 * Qabs (d 0%nat - c).
Proof.
  intros H n. induction n as [|n IH].
  - change (inject_Z (Z.of_nat 0)) with 0.
    pose proof (Qle_Qabs (d 0%nat - c)). lra.
  - rewrite Nat2Z.inj_succ, <- Z.add_1_r, inject_Z_plus. change (inject_Z 1) with 1.
    pose proof (H n) as Hn.
    pose proof (Qabs_nonneg (d 0%nat - c)) as P.
    assert (0 <= inject_Z (Z.of_nat n)) as Nn.
    { change 0 with (inject_Z 0). rewrite <- Zle_Qle. lia. }
    revert IH Hn P Nn.
    generalize (d (S n)) (d n) (inject_Z (Z.of_nat n)) (Qabs (d 0%nat - c)).
    intros x y k D IH Hn P Nn.
    destruct (Qlt_le_dec y c) as [L|L].
    + assert ((x - c) * (39 + (k + 1)) <= 0) by nra. lra.
    + assert ((x - c) * (39 + (k + 1)) <= (y - c) * (39 + k)) by nra. lra.
Qed.

Lemma contraction_converges (d : nat → Q) (c e : Q) :
  (∀ n, d (S n) <= (39#40) * d n + c * (1#40)) →
  0 < e → ∃ N : nat, ∀ n, (N <= n)%nat → d n < c + e.
Proof.
  intros H He.
  set (X := 39 * Qabs (d 0%nat - c) / e).
  exists (Z.to_nat (Qfloor X + 1)). intros n Hn.
  pose proof (contraction_rate d c H n) as R.
  pose proof (Qabs_nonneg (d 0%nat - c)) as P0.
  assert (X < inject_Z (Z.of_nat n)) as Xn.
  { eapply Qlt_le_trans; [exact (Qlt_floor X)|]. rewrite <- Zle_Qle. lia. }
  assert (39 * Qabs (d 0%nat - c) == X * e) as EX.
  { unfold X. field. lra. }
  assert (0 <= X) as PX by (unfold X; apply Qle_shift_div_l; lra).
  revert R P0 Xn EX PX. clear Hn.
  generalize (d n) (inject_Z (Z.of_nat n)) (Qabs (d 0%nat - c)) X.
  intros x k D y R P0 Xn EX PX.
  destruct (Qlt_le_dec x (c + e)) as [L|L]; [exact L|].
  exfalso. nra.
Qed.

(** The bounds and the contraction for every number of readings. *)
Lemma smooth_n_within (a0 s : float64) :
  ordinary a0 = true → ordinary s = true →
  ∀ n,
    about (Qmin (to_Q a0) (to_Q s)) (Qmax (to_Q a0) (to_Q s)) (smooth_n n a0 s)
    ∧ Qabs (to_Q (smooth_n (S n) a0 s) - to_Q s)
      <= (39#40) * Qabs (to_Q (smooth_n n a0 s) - to_Q s)
         + pow2 (-50) * Qmax (to_Q a0) (to_Q s) + pow2 (-1072).
Proof.
  intros H0 Hs n.
  destruct (ordinary_spec a0 H0) as [Na A1]. destruct (ordinary_spec s Hs) as [Ns S1].
  pose proof (nonneg_to_Q a0 Na) as A0. pose proof (nonneg_to_Q s Ns) as S0.
  pose proof (Q.le_min_l (to_Q a0) (to_Q s)) as M1.
  pose proof (Q.le_min_r (to_Q a0) (to_Q s)) as M2.
  pose proof (Q.le_max_l (to_Q a0) (to_Q s)) as M3.
  pose proof (Q.le_max_r (to_Q a0) (to_Q s)) as M4.
  assert (0 <= Qmin (to_Q a0) (to_Q s)) as M5 by (apply Q.min_glb; assumption).
  assert (Qmax (to_Q a0) (to_Q s) <= pow2 1000) as M6
    by (apply Q.max_lub; apply Qlt_le_weak; assumption).
  set (lo := Qmin (to_Q a0) (to_Q s)) in *. set (hi := Qmax (to_Q a0) (to_Q s)) in *.
  clearbody lo hi.
  apply (about_n lo hi s); try assumption.
  split; [exact Na|]. numerals. split; lra.
Qed.

(** C8, amended.  The wind update is [avg*39/40 + speed*1/40] with every
    operation rounded to float64.  Take a constant sample [s] and a
    starting average that are each zero or a positive number below
    2^1000.  After every reading the loop has not crashed and the
    average is a non-negative number that lies between the smaller and
    the larger of the starting average and [s] up to a relative 2^-46
    and an absolute 2^-1067: it may leave that interval, but by no more
    than that.  Each reading brings the average toward [s] up to
    rounding: the distance to [s] is at most 39/40 of the previous
    distance plus 2^-50 times the larger of the two plus 2^-1072; the
    distance therefore comes below any positive amount added to 2^-44
    times the larger of the two plus 2^-1066.  Neither staying inside
    the interval nor moving monotonically holds exactly. *)
Theorem smoothing_within_rounding (cfg : @Config float64) (st : @State float64)
    (ev : @Event float64) (s : float64) :
  reading_of cfg KWind "speed" ev s →
  ordinary (avgWind st) = true →
  ordinary s = true →
  let a := fun k => avgWind (final (Run cfg st (replicate k (EventIn ev)))) in
  let lo := Qmin (to_Q (avgWind st)) (to_Q s) in
  let hi := Qmax (to_Q (avgWind st)) (to_Q s) in
  (∀ n,
     crash (Run cfg st (replicate n (EventIn ev))) = None
     ∧ a (S n) = (a n *~ lit 39 /~ lit 40 +~ s *~ lit 1 /~ lit 40)%num
     ∧ is_number (a n) = true
     ∧ 0 <= to_Q (a n)
     ∧ lo * (1 - pow2 (-46)) - pow2 (-1067) <= to_Q (a n)
     ∧ to_Q (a n) <= hi * (1 + pow2 (-46)) + pow2 (-1067)
     ∧ Qabs (to_Q (a (S n)) - to_Q s)
       <= (39#40) * Qabs (to_Q (a n) - to_Q s) + pow2 (-50) * hi + pow2 (-1072))
  ∧ (∀ d, 0 < d →
       ∃ N : nat, ∀ n, (N <= n)%nat →
         Qabs (to_Q (a n) - to_Q s) < d + pow2 (-44) * hi + pow2 (-1066)).
Proof.
  intros Hr H0 Hs a lo hi.
  assert (An : ∀ k, a k = smooth_n k (avgWind st) s)
    by (intros k; exact (proj2 (Run_wind_constant cfg st ev s k Hr))).
  assert (W : ∀ n, about lo hi (a n)
                   ∧ Qabs (to_Q (a (S n)) - to_Q s)
                     <= (39#40) * Qabs (to_Q (a n) - to_Q s) + pow2 (-50) * hi
                        + pow2 (-1072)).
  { intros n. rewrite !An. apply smooth_n_within; assumption. }
  split.
  - intros n. destruct (W n) as [(Nn & B0 & B1) C].
    split; [exact (proj1 (Run_wind_constant cfg st ev s n Hr))|].
    split; [rewrite !An; apply smooth_n_outer|].
    split; [exact (nonneg_is_number _ Nn)|].
    split; [exact (nonneg_to_Q _ Nn)|].
    split; [exact B0|]. split; [exact B1 | exact C].
  - intros d Hd.
    assert (0 <= hi) as HP.
    { destruct (ordinary_spec _ Hs) as [Ns _]. pose proof (nonneg_to_Q s Ns).
      pose proof (Q.le_max_r (to_Q (avgWind st)) (to_Q s)) as M. fold hi in M. lra. }
    destruct (contraction_converges
                (fun n => Qabs (to_Q (a n) - to_Q s))
                (40 * (pow2 (-50) * hi + pow2 (-1072))) d) as [N HN].
    + intros n. destruct (W n) as [_ C]. cbv beta. lra.
    + exact Hd.
    + exists N. intros n Hn. specialize (HN n Hn). cbv beta in HN.
      revert HN HP. generalize (Qabs (to_Q (a n) - to_Q s)). clearbody hi. clear.
      intros x HN HP. numerals. lra.
Qed.

Lemma smoothing_within_rounding_witness :
  let a := fun k =>
    avgWind (final (Run (Demo.config (Demo.num 10 1))
                      (Demo.seeded (lit 0) (lit 0) (lit 0) (Demo.num 2 1))
                      (replicate k (EventIn (Demo.reading "wind" "speed" (lit 0)))))) in
  0 <= to_Q (a 3%nat)
  ∧ to_Q (a 3%nat)
    <= Qmax (to_Q (Demo.num 2 1)) (to_Q (@lit float64 _ 0)) * (1 + pow2 (-46)) + pow2 (-1067).
Proof.
  intros a.
  destruct (smoothing_within_rounding (Demo.config (Demo.num 10 1))
              (Demo.seeded (lit 0) (lit 0) (lit 0) (Demo.num 2 1))
              (Demo.reading "wind" "speed" (lit 0)) (lit 0)) as [B _].
  - split; vm_compute; reflexivity.
  - vm_compute. reflexivity.
  - vm_compute. reflexivity.
  - destruct (B 3%nat) as (_ & _ & _ & L & _ & U & _). split; [exact L | exact U].
Defined.

End SmoothingBounds.

(** * Further properties *)

(** ** The RFID reader *)

Section RfidProperties.
Import Weather IEEE Rfid.

Lemma convertKeyCode_enter (code : Z) :
  convertKeyCode code = 10 ↔ code = 28 ∨ code = 96.
Proof.
  unfold convertKeyCode, uint16.
  destruct (2 <=? code) eqn:A, (code <=? 10) eqn:B; simpl;
    [rewrite (Z.mod_small (code - 2)) by lia; rewrite Z.mod_small by lia; lia| | |];
    (destruct (code =? 11) eqn:C; [lia|]);
    (destruct (code =? 96) eqn:D, (code =? 28) eqn:E; simpl; lia).
Qed.

(** X1.  The digit keys 2..11 of the keyboard row give the characters of
    the digits 1..9 and 0, Enter and keypad Enter (28, 96) give a line
    feed, and every other 16-bit key code gives 0; the subtraction never
    wraps. *)
Theorem convertKeyCode_classes (code : Z) :
  0 <= code < 65536 →
  (2 <= code <= 11 → convertKeyCode code = 48 + (code - 1) mod 10)
  ∧ (code = 28 ∨ code = 96 → convertKeyCode code = 10)
  ∧ (¬ 2 <= code <= 11 → code ≠ 28 → code ≠ 96 → convertKeyCode code = 0)
  ∧ (convertKeyCode code = 0 ∨ convertKeyCode code = 10
     ∨ 48 <= convertKeyCode code <= 57).
Proof.
  intros R. pose proof (convertKeyCode_enter code) as En. revert En.
  unfold convertKeyCode, uint16.
  destruct (2 <=? code) eqn:A, (code <=? 10) eqn:B; simpl;
    [rewrite (Z.mod_small (code - 2)) by lia; rewrite (Z.mod_small (code - 2 + 49)) by lia;
     intros _; repeat split; try lia;
     intros _; rewrite Z.mod_small by lia; lia | | |];
    (destruct (code =? 11) eqn:C;
     [intros _; assert (code = 11) as -> by lia; repeat split; try lia; reflexivity|]);
    (destruct (code =? 96) eqn:D, (code =? 28) eqn:E; simpl; intros _; repeat split; lia).
Qed.

Lemma convertKeyCode_classes_witness :
  convertKeyCode 5 = 48 + (5 - 1) mod 10 ∧ convertKeyCode 28 = 10 ∧ convertKeyCode 30 = 0.
Proof.
  destruct (convertKeyCode_classes 5) as (D & _); [lia|].
  destruct (convertKeyCode_classes 28) as (_ & E & _); [lia|].
  destruct (convertKeyCode_classes 30) as (_ & _ & O & _); [lia|].
  split; [apply D; lia|]. split; [apply E; left; reflexivity | apply O; lia].
Defined.

Lemma readOne_release code ev : is_key_press ev = false → readOne code ev = (code, []).
Proof. unfold readOne, is_key_press. intros ->. reflexivity. Qed.

Lemma readOne_enter code ev : is_enter ev = true → readOne code ev = (EmptyString, [emit code]).
Proof.
  unfold readOne, is_enter, is_key_press. intros E.
  apply andb_prop in E as [-> E]. apply orb_prop in E.
  assert (convertKeyCode (Code ev) = 10) as -> by (apply convertKeyCode_enter; lia).
  reflexivity.
Qed.

Lemma readOne_key code ev :
  is_key_press ev = true → is_enter ev = false →
  readOne code ev = (code +:+ string_of_rune (convertKeyCode (Code ev)), []).
Proof.
  unfold readOne, is_enter. intros P E. rewrite P in E. simpl in E.
  unfold is_key_press in P. rewrite P.
  destruct (convertKeyCode (Code ev) =? 10) eqn:T; [|reflexivity].
  apply Z.eqb_eq, convertKeyCode_enter in T. lia.
Qed.

Lemma readLoop_cons code ev rest :
  readLoop code (ev :: rest)
  = (fst (readLoop (fst (readOne code ev)) rest),
     snd (readOne code ev) ++ snd (readLoop (fst (readOne code ev)) rest)).
Proof.
  simpl. destruct (readOne code ev) as [c o]. simpl.
  destruct (readLoop c rest) as [c' o']. reflexivity.
Qed.

(** Reading [xs ++ ys] is reading [xs] and then reading [ys] from the
    code left pending. *)
Lemma readLoop_append (code : string) (xs ys : list InputEvent) :
  readLoop code (xs ++ ys)
  = (fst (readLoop (fst (readLoop code xs)) ys),
     snd (readLoop code xs) ++ snd (readLoop (fst (readLoop code xs)) ys)).
Proof.
  revert code. induction xs as [|ev xs IH]; intros code.
  - simpl. destruct (readLoop code ys). reflexivity.
  - change ((ev :: xs) ++ ys) with (ev :: (xs ++ ys)).
    rewrite !readLoop_cons, IH. simpl. rewrite app_assoc. reflexivity.
Qed.

(** X3.  Key releases, repeats and events that are not key events change
    nothing: dropping them from the stream gives the same pending code
    and the same published tags. *)
Theorem readLoop_only_presses (code : string) (evs : list InputEvent) :
  readLoop code (filter (fun ev => is_key_press ev = true) evs) = readLoop code evs.
Proof.
  revert code. induction evs as [|ev evs IH]; intros code; [reflexivity|].
  rewrite filter_cons. destruct (decide (is_key_press ev = true)) as [P|P].
  - rewrite !readLoop_cons, !IH. reflexivity.
  - apply not_true_is_false in P.
    rewrite (readLoop_cons code ev evs), (readOne_release code ev P). simpl.
    rewrite IH. destruct (readLoop code evs). reflexivity.
Qed.

End RfidProperties.

Section RfidTags.
Import Weather IEEE Rfid.

Lemma convertKeyCode_value (code : Z) :
  convertKeyCode code =
    if (2 <=? code) && (code <=? 10) then code + 47
    else if code =? 11 then 48
    else if (code =? 96) || (code =? 28) then 10
    else 0.
Proof.
  unfold convertKeyCode, uint16.
  destruct (2 <=? code) eqn:A, (code <=? 10) eqn:B; simpl; try reflexivity.
  rewrite (Z.mod_small (code - 2)) by lia. rewrite Z.mod_small by lia. lia.
Qed.

Lemma convertKeyCode_small (code : Z) : 0 <= convertKeyCode code < 128.
Proof.
  rewrite convertKeyCode_value.
  destruct (2 <=? code) eqn:A, (code <=? 10) eqn:B; simpl; try lia;
    destruct (code =? 11); try lia; destruct ((code =? 96) || (code =? 28)); lia.
Qed.

Lemma string_of_rune_small (r : Z) :
  r < 128 → string_of_rune r = String (byte r) EmptyString.
Proof. intros L. unfold string_of_rune. rewrite (proj2 (Z.ltb_lt r 128) L). reflexivity. Qed.

Lemma readOne_digit code d :
  0 <= d <= 9 →
  readOne code (press (keycode_of_digit d))
  = (code +:+ String (digit_char d) EmptyString, []).
Proof.
  intros R. rewrite readOne_key.
  - f_equal. f_equal. rewrite string_of_rune_small by apply convertKeyCode_small.
    f_equal. unfold digit_char. f_equal.
    change (Code (press (keycode_of_digit d))) with (keycode_of_digit d).
    rewrite convertKeyCode_value. unfold keycode_of_digit.
    destruct (d =? 0) eqn:Z0; [apply Z.eqb_eq in Z0; subst; reflexivity|].
    apply Z.eqb_neq in Z0.
    rewrite (proj2 (Z.leb_le 2 (d + 1))), (proj2 (Z.leb_le (d + 1) 10)) by lia.
    simpl. lia.
  - reflexivity.
  - unfold is_enter, press, keycode_of_digit. simpl.
    destruct (d =? 0) eqn:Z0; [reflexivity|]. apply Z.eqb_neq in Z0.
    rewrite (proj2 (Z.eqb_neq (d + 1) 28)), (proj2 (Z.eqb_neq (d + 1) 96)) by lia.
    reflexivity.
Qed.

Lemma append_cons_assoc (a : string) (c : ascii) (b : string) :
  (a +:+ String c EmptyString) +:+ b = a +:+ String c b.
Proof. induction a as [|x a IH]; [reflexivity | exact (f_equal (String x) IH)]. Qed.

Lemma readLoop_digits code ds :
  Forall (fun d => 0 <= d <= 9) ds →
  readLoop code (type_digits ds) = (code +:+ digits_string ds, []).
Proof.
  intros H. revert code. induction H as [|d ds Hd _ IH]; intros code.
  - simpl. f_equal. induction code as [|x a IHa]; [reflexivity | exact (f_equal (String x) IHa)].
  - change (type_digits (d :: ds))
      with (press (keycode_of_digit d) :: release (keycode_of_digit d) :: type_digits ds).
    rewrite readLoop_cons, (readOne_digit code d Hd). cbn [fst snd].
    rewrite readLoop_cons, readOne_release by reflexivity. cbn [fst snd].
    rewrite IH. simpl. rewrite append_cons_assoc. reflexivity.
Qed.

(** X4.  A tag typed as decimal digits (each key pressed and released)
    and ended by Enter or keypad Enter is published once, with exactly
    those digits appended to whatever was pending, and the pending code
    is empty afterwards. *)
Theorem typed_tag_is_published (code : string) (ds : list Z) (enter : Z) :
  Forall (fun d => 0 <= d <= 9) ds →
  enter = 28 ∨ enter = 96 →
  readLoop code (type_digits ds ++ [press enter])
  = (EmptyString, [emit (code +:+ digits_string ds)]).
Proof.
  intros H E. rewrite readLoop_append, (readLoop_digits code ds H). cbn [fst snd].
  rewrite readLoop_cons, readOne_enter.
  - reflexivity.
  - unfold is_enter, press, is_key_press. simpl. destruct E as [-> | ->]; reflexivity.
Qed.

Lemma typed_tag_is_published_witness :
  readEvents {| reads := type_digits [0; 4; 2; 9] ++ [press 28]; failure := "EOF" |}
  = ("EOF", [emit "0429"]).
Proof.
  unfold readEvents. cbn [reads failure].
  rewrite (typed_tag_is_published EmptyString [0; 4; 2; 9] 28);
    [reflexivity | repeat constructor; lia | left; reflexivity].
Defined.

(** X5.  Exactly one tag is published per press of Enter or keypad
    Enter, whatever else is in the stream and even when nothing was
    typed; everything published is a tag event built by [emit]. *)
Theorem one_tag_per_enter (code : string) (evs : list InputEvent) :
  length (snd (readLoop code evs)) = length (filter (fun ev => is_enter ev = true) evs)
  ∧ Forall (fun e => ∃ c, e = emit c) (snd (readLoop code evs)).
Proof.
  revert code. induction evs as [|ev evs IH]; intros code.
  - split; [reflexivity | constructor].
  - rewrite readLoop_cons, filter_cons. cbn [snd].
    destruct (decide (is_enter ev = true)) as [E|E].
    + rewrite (readOne_enter code ev E). simpl.
      destruct (IH EmptyString) as [L F]. split; [rewrite L; reflexivity|].
      constructor; [exists code; reflexivity | exact F].
    + apply not_true_is_false in E.
      destruct (is_key_press ev) eqn:P.
      * rewrite (readOne_key code ev P E). simpl. apply IH.
      * rewrite (readOne_release code ev P). simpl. apply IH.
Qed.

(** X6.  Between two Enters every key press lengthens the pending code by
    exactly one byte: a digit key by its digit, any other key by a NUL
    byte, since [convertKeyCode] gives 0 and [string(0)] is that byte. *)
Theorem one_byte_per_key (code : string) (evs : list InputEvent) :
  Forall (fun ev => is_enter ev = false) evs →
  snd (readLoop code evs) = []
  ∧ String.length (fst (readLoop code evs))
    = (String.length code + length (filter (fun ev => is_key_press ev = true) evs))%nat
  ∧ ∀ k, ¬ 2 <= k <= 11 → k ≠ 28 → k ≠ 96 →
      readOne code (press k) = (code +:+ String (ascii_of_nat 0) EmptyString, []).
Proof.
  intros H. split; [|split].
  - revert code. induction H as [|ev evs E _ IH]; intros code; [reflexivity|].
    rewrite readLoop_cons. cbn [snd].
    destruct (is_key_press ev) eqn:P;
      [rewrite (readOne_key code ev P E) | rewrite (readOne_release code ev P)];
      simpl; apply IH.
  - revert code. induction H as [|ev evs E _ IH]; intros code; [simpl; lia|].
    rewrite readLoop_cons, filter_cons. cbn [fst].
    destruct (is_key_press ev) eqn:P.
    + rewrite (readOne_key code ev P E). cbn [fst]. rewrite IH.
      rewrite string_of_rune_small by apply convertKeyCode_small.
      rewrite length_append. rewrite decide_True by reflexivity. simpl. lia.
    + rewrite (readOne_release code ev P). cbn [fst]. rewrite IH.
      rewrite decide_False by discriminate. reflexivity.
  - intros k K1 K2 K3. rewrite readOne_key.
    + f_equal. f_equal. rewrite string_of_rune_small by apply convertKeyCode_small.
      change (Code (press k)) with k. rewrite convertKeyCode_value.
      destruct (2 <=? k) eqn:A, (k <=? 10) eqn:B; simpl; try lia;
        (destruct (k =? 11) eqn:C; [lia|]);
        rewrite (proj2 (Z.eqb_neq k 96)), (proj2 (Z.eqb_neq k 28)) by lia; reflexivity.
    + reflexivity.
    + unfold is_enter, press. simpl.
      rewrite (proj2 (Z.eqb_neq k 96)), (proj2 (Z.eqb_neq k 28)) by lia. reflexivity.
Qed.

Lemma one_byte_per_key_witness :
  String.length (fst (readLoop "12" [press 30; release 30; press 4]))
  = (String.length "12" + length (filter (fun ev => is_key_press ev = true)
                                     [press 30; release 30; press 4]))%nat.
Proof.
  apply (one_byte_per_key "12" [press 30; release 30; press 4]).
  repeat constructor.
Defined.

End RfidTags.

(** ** The MQTT publisher *)

Section MqttProperties.
Import Weather IEEE Mqtt.

(** Every publication goes out at QoS 1 under a topic that starts
    with [gohome/]; what follows the prefix is the event's topic, so two
    events are published under the same topic only if their topics are
    the same. *)
Theorem Emit_under_gohome (Bytes : @Event float64 → string) (pub : Publisher)
    (ev ev' : @Event float64) :
  qos (Emit Bytes pub ev) = 1
  ∧ substring 0 7 (topic (Emit Bytes pub ev)) = "gohome/"
  ∧ substring 7 (String.length (Topic ev)) (topic (Emit Bytes pub ev)) = Topic ev
  ∧ payload (Emit Bytes pub ev) = Bytes ev
  ∧ (topic (Emit Bytes pub ev) = topic (Emit Bytes pub ev') → Topic ev = Topic ev').
Proof.
  assert (P : ∀ s, substring 0 (String.length s) s = s).
  { induction s as [|c s IH]; [reflexivity | simpl; rewrite IH; reflexivity]. }
  unfold Emit. simpl. repeat split.
  - destruct (Topic ev); reflexivity.
  - apply P.
  - intros E. injection E as E. exact E.
Qed.

End MqttProperties.

(** ** More on the weather service *)

Section LoopProperties.
Import Weather IEEE Observe More.
Local Open Scope num_scope.

Lemma tick_ret_inv (gr : @IGraphite float64) out :
  tick gr = Ret out → ∃ msg, out = [tweet msg "daily" 0].
Proof.
  unfold tick, mbind, go_bind, bind. destruct (weatherStats gr) as [msg|msg]; [|discriminate].
  intros E. injection E as <-. exists msg. reflexivity.
Qed.

Lemma handle_tick_inv (cfg : @Config float64) st gr st' out :
  handle cfg st (TickIn gr) = Ret (st', out) →
  st' = st ∧ ∃ msg, out = [tweet msg "daily" 0].
Proof.
  unfold handle, mbind, go_bind, bind. destruct (tick gr) as [o|m] eqn:T; [|discriminate].
  intros E. apply Ret_pair_inj in E as [<- <-]. split; [reflexivity|].
  exact (tick_ret_inv gr o T).
Qed.

Lemma pick_shape b a : alert_shape a → Forall alert_shape (pick b a).
Proof. intros S. destruct b; [constructor; [exact S | constructor] | constructor]. Qed.

Lemma event_alert_shape msg topic :
  topic ∈ ["rain"; "temp"; "humidity"; "wind"] → alert_shape (tweet msg topic 7200).
Proof. intros I. split; [reflexivity|]. right. split; [exact I | reflexivity]. Qed.

Lemma handle_shape (cfg : @Config float64) st i st' out :
  handle cfg st i = Ret (st', out) →
  Forall alert_shape out ∧ (length out <= 2)%nat.
Proof.
  destruct i as [ev|gr].
  - intros E. pose proof (checkEvent_ret_inv cfg st ev st' out E) as I.
    change (handle cfg st (EventIn ev)) with (checkEvent cfg st ev) in E.
    destruct (classify cfg ev) eqn:K.
    + destruct I as [rain Hr]. rewrite (checkEvent_rain cfg st ev rain Hr) in E.
      apply Ret_pair_inj in E as [_ <-].
      split; [apply pick_shape, event_alert_shape; set_solver|].
      destruct (rain_fires st rain); simpl; lia.
    + destruct I as [t Hr]. rewrite (checkEvent_temp cfg st ev t Hr) in E.
      destruct (Fields ev !! "humidity") as [[humd|s|b]|];
        apply Ret_pair_inj in E as [_ <-];
        (split; [try apply Forall_app_2;
                 apply pick_shape, event_alert_shape; set_solver|]);
        rewrite ?length_app; destruct (below_zero_fires st t);
        try destruct (humidity_fires st humd); simpl; lia.
    + destruct I as [speed Hr]. rewrite (checkEvent_wind cfg st ev speed Hr) in E.
      apply Ret_pair_inj in E as [_ <-].
      split.
      * apply (pick_shape (smooth (avgWind st) speed >~ Windy cfg)
                 (windAlert (smooth (avgWind st) speed))).
        apply event_alert_shape. set_solver.
      * destruct (smooth (avgWind st) speed >~ Windy cfg); simpl; lia.
    + destruct I as [_ ->]. split; [constructor | simpl; lia].
  - intros E. destruct (handle_tick_inv cfg st gr st' out E) as [_ [msg ->]].
    split; [|simpl; lia]. constructor; [|constructor].
    split; [reflexivity|]. left. split; reflexivity.
Qed.

(** X8.  Whatever the inputs, every alert the loop sends goes to twitter
    and is either the digest (subtopic daily, interval 0) or one of the
    four event alerts (rain, temp, humidity, wind) with interval 7200;
    no input yields more than two alerts. *)
Theorem sent_alerts_shape (cfg : @Config float64) (st : @State float64)
    (inputs : list (@Input float64)) :
  Forall alert_shape (sent (Run cfg st inputs))
  ∧ (length (sent (Run cfg st inputs)) <= 2 * length inputs)%nat.
Proof.
  revert st. induction inputs as [|i rest IH]; intros st.
  - split; [constructor | simpl; lia].
  - destruct (handle cfg st i) as [[st' out]|msg] eqn:E.
    + rewrite (Run_cons_ret cfg st i rest st' out E). cbn [sent].
      destruct (handle_shape cfg st i st' out E) as [S L], (IH st') as [S' L'].
      split; [apply Forall_app_2; assumption|]. rewrite length_app. simpl length. lia.
    + rewrite (Run_cons_panic cfg st i rest msg E). cbn [sent].
      split; [constructor | simpl; lia].
Qed.

(** Handling [xs ++ ys]: after [xs] without a panic, [ys] is handled
    from the state reached; a panic in [xs] leaves [ys] unhandled. *)
Lemma Run_append (cfg : @Config float64) (st : @State float64)
    (xs ys : list (@Input float64)) :
  (crash (Run cfg st xs) = None →
   unhandled (Run cfg st xs) = []
   ∧ Run cfg st (xs ++ ys)
     = {| final := final (Run cfg (final (Run cfg st xs)) ys);
          sent := sent (Run cfg st xs) ++ sent (Run cfg (final (Run cfg st xs)) ys);
          crash := crash (Run cfg (final (Run cfg st xs)) ys);
          unhandled := unhandled (Run cfg (final (Run cfg st xs)) ys) |})
  ∧ (∀ msg, crash (Run cfg st xs) = Some msg →
     Run cfg st (xs ++ ys)
     = {| final := final (Run cfg st xs); sent := sent (Run cfg st xs);
          crash := Some msg; unhandled := unhandled (Run cfg st xs) ++ ys |}).
Proof.
  revert st. induction xs as [|i xs IH]; intros st.
  - split; [intros _; split; [reflexivity|]; simpl; destruct (Run cfg st ys); reflexivity
           | intros msg E; discriminate E].
  - change ((i :: xs) ++ ys) with (i :: (xs ++ ys)).
    destruct (handle cfg st i) as [[st' out]|m] eqn:E.
    + rewrite (Run_cons_ret cfg st i xs st' out E), (Run_cons_ret cfg st i _ st' out E).
      cbn [crash unhandled final sent]. destruct (IH st') as [A B]. split.
      * intros C. destruct (A C) as [U R]. split; [exact U|].
        rewrite R. cbn [crash unhandled final sent]. rewrite app_assoc. reflexivity.
      * intros msg C. rewrite (B msg C). reflexivity.
    + rewrite (Run_cons_panic cfg st i xs m E), (Run_cons_panic cfg st i _ m E).
      cbn [crash unhandled final sent]. split; [discriminate|].
      intros msg C. injection C as <-. reflexivity.
Qed.

End LoopProperties.

Section TickProperties.
Import Weather IEEE Observe More.
Local Open Scope num_scope.

Lemma getLast24_cases (gr : @IGraphite float64) cf :
  if ok_without_point (Stated.answer gr cf)
  then ∃ msg, getLast24 gr "garden.temp" cf = Panic msg
  else ∃ x, getLast24 gr "garden.temp" cf = Ret x.
Proof.
  unfold Stated.answer, getLast24.
  destruct (gr "-24h" "now" (query_target "garden.temp" cf)) as [[|[tg [|[a x] pts]] more]|err];
    simpl; eexists; reflexivity.
Qed.

(** X10.  A tick panics exactly when the maximum query or the minimum
    query succeeds without a first data point.  In every other case it
    sends exactly one alert, on subtopic daily with interval 0, and
    leaves the rolling state untouched. *)
Theorem tick_panics_iff (cfg : @Config float64) (st : @State float64)
    (gr : @IGraphite float64) :
  ((∃ msg, handle cfg st (TickIn gr) = Panic msg)
   ↔ ok_without_point (Stated.answer gr "max") = true
     ∨ ok_without_point (Stated.answer gr "min") = true)
  ∧ (ok_without_point (Stated.answer gr "max") = false →
     ok_without_point (Stated.answer gr "min") = false →
     ∃ msg, handle cfg st (TickIn gr) = Ret (st, [tweet msg "daily" 0])).
Proof.
  pose proof (getLast24_cases gr "max") as Hmax.
  pose proof (getLast24_cases gr "min") as Hmin.
  unfold handle, tick.
  destruct (ok_without_point (Stated.answer gr "max")).
  - destruct Hmax as [m Em]. unfold weatherStats, mbind, go_bind, bind. rewrite Em.
    split; [split; [intros _; left; reflexivity | intros _; exists m; reflexivity]
           | discriminate].
  - destruct Hmax as [h Eh]. destruct (ok_without_point (Stated.answer gr "min")).
    + destruct Hmin as [m Em]. unfold weatherStats, mbind, go_bind, bind.
      rewrite Eh. cbv beta iota. rewrite Em.
      split; [split; [intros _; right; reflexivity | intros _; exists m; reflexivity]
             | discriminate].
    + destruct Hmin as [l El]. rewrite (weatherStats_of_values gr h l Eh El).
      split; [split; [intros [m E]; discriminate E | intros [E|E]; discriminate E]|].
      intros _ _. eexists. reflexivity.
Qed.

Lemma tick_panics_iff_witness :
  ∃ msg,
    handle (Demo.config (Demo.num 10 1)) initial
      (TickIn (Demo.graphite (QueryErr "timeout") (Demo.series (Demo.num 6 5))))
    = Ret (initial, [tweet msg "daily" 0]).
Proof.
  apply (proj2 (tick_panics_iff (Demo.config (Demo.num 10 1)) initial
                  (Demo.graphite (QueryErr "timeout") (Demo.series (Demo.num 6 5)))));
    vm_compute; reflexivity.
Defined.

End TickProperties.

Section NotANumber.
Import Weather IEEE Observe More.
Local Open Scope num_scope.

Lemma smooth_nan_avg (speed : float64) : smooth NaN speed = NaN.
Proof. reflexivity. Qed.

Lemma smooth_nan_speed (avg : float64) : smooth avg NaN = NaN.
Proof.
  unfold smooth. change (NaN *~ lit 1 /~ lit 40) with NaN.
  change (f_add ?x NaN) with (SFadd prec emax x NaN).
  destruct (avg *~ lit 39 /~ lit 40); reflexivity.
Qed.

Lemma nan_never_above (x : float64) : NaN >~ x = false.
Proof. destruct x; reflexivity. Qed.

Lemma handle_keeps_nan (cfg : @Config float64) st i st' out :
  avgWind st = NaN →
  handle cfg st i = Ret (st', out) →
  avgWind st' = NaN ∧ alerts_on "wind" out = 0%nat.
Proof.
  intros N E. destruct i as [ev|gr].
  - pose proof (checkEvent_ret_inv cfg st ev st' out E) as I.
    change (handle cfg st (EventIn ev)) with (checkEvent cfg st ev) in E.
    destruct (classify cfg ev) eqn:K.
    + destruct I as [rain Hr]. rewrite (checkEvent_rain cfg st ev rain Hr) in E.
      apply Ret_pair_inj in E as [<- <-].
      split; [exact N | apply alerts_on_pick_other; discriminate].
    + destruct I as [t Hr]. rewrite (checkEvent_temp cfg st ev t Hr) in E.
      destruct (Fields ev !! "humidity") as [[humd|s|b]|];
        apply Ret_pair_inj in E as [<- <-]; (split; [exact N|]);
        rewrite ?alerts_on_app, !alerts_on_pick_other by discriminate; reflexivity.
    + destruct I as [speed Hr]. rewrite (checkEvent_wind cfg st ev speed Hr) in E.
      apply Ret_pair_inj in E as [<- <-]. rewrite N, smooth_nan_avg, nan_never_above.
      split; reflexivity.
    + destruct I as [-> ->]. split; [exact N | reflexivity].
  - destruct (handle_tick_inv cfg st gr st' out E) as [-> [msg ->]].
    split; [exact N | reflexivity].
Qed.

(** X11.  A wind reading whose speed is NaN makes the average NaN, and
    once the average is NaN it stays NaN and no wind alert is ever sent
    again, whatever inputs follow. *)
Theorem nan_silences_wind (cfg : @Config float64) (st : @State float64)
    (inputs : list (@Input float64)) :
  (∀ ev, reading_of cfg KWind "speed" ev NaN →
     ∃ out, checkEvent cfg st ev = Ret (set_avgWind NaN st, out))
  ∧ (avgWind st = NaN →
     avgWind (final (Run cfg st inputs)) = NaN
     ∧ alerts_on "wind" (sent (Run cfg st inputs)) = 0%nat).
Proof.
  split.
  - intros ev Hr. rewrite (checkEvent_wind cfg st ev NaN Hr), smooth_nan_speed.
    eexists. reflexivity.
  - revert st. induction inputs as [|i rest IH]; intros st N.
    + split; [exact N | reflexivity].
    + destruct (handle cfg st i) as [[st' out]|msg] eqn:E.
      * rewrite (Run_cons_ret cfg st i rest st' out E). cbn [final sent].
        destruct (handle_keeps_nan cfg st i st' out N E) as [N' A].
        destruct (IH st' N') as [F S]. split; [exact F|].
        rewrite alerts_on_app, A, S. reflexivity.
      * rewrite (Run_cons_panic cfg st i rest msg E). split; [exact N | reflexivity].
Qed.

Lemma nan_silences_wind_witness :
  avgWind (final (Run (Demo.config (Demo.num 1 1))
                    (Demo.seeded (lit 0) (lit 0) (lit 0) NaN)
                    [EventIn (Demo.reading "wind" "speed" (Demo.num 500 1))])) = NaN
  ∧ alerts_on "wind"
      (sent (Run (Demo.config (Demo.num 1 1))
               (Demo.seeded (lit 0) (lit 0) (lit 0) NaN)
               [EventIn (Demo.reading "wind" "speed" (Demo.num 500 1))])) = 0%nat.
Proof.
  apply (proj2 (nan_silences_wind (Demo.config (Demo.num 1 1))
                  (Demo.seeded (lit 0) (lit 0) (lit 0) NaN)
                  [EventIn (Demo.reading "wind" "speed" (Demo.num 500 1))])).
  reflexivity.
Defined.

End NotANumber.

Section ZeroReading.
Import Weather IEEE Observe More.
Local Open Scope num_scope.

Lemma eqb_zero_not_below (t : float64) : t ==~ lit 0 = true → t <~ lit 0 = false.
Proof. destruct t as [s|s| |s m e]; try destruct s; cbv; congruence. Qed.

(** X12.  A temperature reading equal to zero hides the crossing: it
    sends no below-zero alert itself, and the reading that follows it
    sends none either, however far below zero it is and whatever was
    stored before. *)
Theorem zero_reading_hides_crossing (cfg : @Config float64) (st : @State float64)
    (ev1 ev2 : @Event float64) (t0 t : float64) :
  reading_of cfg KTemp "temp" ev1 t0 →
  reading_of cfg KTemp "temp" ev2 t →
  t0 ==~ lit 0 = true →
  crash (Run cfg st [EventIn ev1; EventIn ev2]) = None
  ∧ alerts_on "temp" (sent (Run cfg st [EventIn ev1; EventIn ev2])) = 0%nat.
Proof.
  intros H1 H2 Z.
  destruct (temp_pair cfg st ev1 ev2 t0 t H1 H2) as (st1 & L1 & C & A).
  split; [exact C|]. rewrite A. unfold below_zero_fires.
  rewrite L1, Z, (eqb_zero_not_below t0 Z), andb_false_r. reflexivity.
Qed.

Lemma zero_reading_hides_crossing_witness :
  alerts_on "temp"
    (sent (Run (Demo.config (Demo.num 10 1))
             (Demo.seeded (lit 0) (Demo.num 3 1) (lit 0) (lit 0))
             [EventIn (Demo.reading "temp" "temp" (lit 0));
              EventIn (Demo.reading "temp" "temp" (Demo.num (-4) 1))])) = 0%nat.
Proof.
  apply (zero_reading_hides_crossing (Demo.config (Demo.num 10 1))
           (Demo.seeded (lit 0) (Demo.num 3 1) (lit 0) (lit 0))
           (Demo.reading "temp" "temp" (lit 0))
           (Demo.reading "temp" "temp" (Demo.num (-4) 1)) (lit 0) (Demo.num (-4) 1));
    [split; vm_compute; reflexivity | split; vm_compute; reflexivity | reflexivity].
Defined.

End ZeroReading.

(** ** Comparisons on binary64 are transitive *)

Module OrderMore.
Import IEEE.

Lemma compare_cont_eq m1 m2 : PosDef.Pos.compare_cont Eq m1 m2 = (m1 ?= m2)%positive.
Proof. reflexivity. Qed.

Ltac order_cases :=
  repeat match goal with
  | |- context [PosDef.Pos.compare_cont Eq ?a ?b] => rewrite (compare_cont_eq a b)
  | H : context [PosDef.Pos.compare_cont Eq ?a ?b] |- _ => rewrite (compare_cont_eq a b) in H
  end;
  repeat match goal with
  | |- context [(?a ?= ?b)%positive] => destruct (Pos.compare_spec a b)
  | H : context [(?a ?= ?b)%positive] |- _ => destruct (Pos.compare_spec a b)
  | |- context [(?a ?= ?b)%Z] => destruct (Z.compare_spec a b)
  | H : context [(?a ?= ?b)%Z] |- _ => destruct (Z.compare_spec a b)
  end; simpl in *; try congruence; try lia.

Lemma ltb_leb_trans (a b c : float64) :
  SFltb a b = true → SFleb b c = true → SFltb a c = true.
Proof.
  unfold SFltb, SFleb, SFcompare.
  destruct a as [sa|sa| |sa ma ea], b as [sb|sb| |sb mb eb], c as [sc|sc| |sc mc ec];
    try destruct sa; try destruct sb; try destruct sc; simpl; try congruence;
    intros H1 H2; order_cases.
Qed.

Lemma ltb_leb (a b : float64) : SFltb a b = true → SFleb a b = true.
Proof. unfold SFltb, SFleb. destruct (SFcompare a b) as [[]|]; congruence. Qed.

Lemma ltb_trans (a b c : float64) :
  SFltb a b = true → SFltb b c = true → SFltb a c = true.
Proof. intros H1 H2. exact (ltb_leb_trans a b c H1 (ltb_leb b c H2)). Qed.

Lemma ltb_asym (a b : float64) : SFltb a b = true → SFltb b a = false.
Proof. intros H. apply Order.leb_excludes_ltb, ltb_leb, H. Qed.

End OrderMore.

Section Intervals.
Import Weather IEEE Observe More.
Local Open Scope num_scope.

Lemma ascending_tail (a : @td float64) l : ascending (a :: l) = true → ascending l = true.
Proof.
  destruct l as [|b l]; [reflexivity|].
  change (ascending (a :: b :: l)) with ((temp a <~ temp b) && ascending (b :: l)).
  intros H. apply andb_prop in H as [_ H]. exact H.
Qed.

Lemma ascending_head (a : @td float64) l :
  ascending (a :: l) = true → Forall (fun x => temp a <~ temp x = true) l.
Proof.
  revert a. induction l as [|b l IH]; intros a H; [constructor|].
  change (ascending (a :: b :: l)) with ((temp a <~ temp b) && ascending (b :: l)) in H.
  apply andb_prop in H as [L H]. constructor; [exact L|].
  eapply Forall_impl; [exact (IH b H)|].
  intros x Hx. exact (OrderMore.ltb_trans _ _ _ L Hx).
Qed.

Lemma ascending_before (pre : list (@td float64)) prev rest :
  ascending (pre ++ prev :: rest) = true →
  Forall (fun x => temp x <~ temp prev = true) pre.
Proof.
  induction pre as [|x pre IH]; intros H; [constructor|].
  change ((x :: pre) ++ prev :: rest) with (x :: (pre ++ prev :: rest)) in H.
  constructor.
  - pose proof (ascending_head x _ H) as F.
    rewrite Forall_app in F. destruct F as [_ F]. inversion F; assumption.
  - exact (IH (ascending_tail x _ H)).
Qed.

Lemma getTempDesc_nan (temps : list (@td float64)) : getTempDesc NaN temps = EmptyString.
Proof. induction temps as [|e rest IH]; [reflexivity | exact IH]. Qed.

(** X13.  On a table whose breakpoints increase strictly, [getTempDesc]
    classifies by interval: a value at or above one entry's breakpoint
    and strictly below the next entry's gets the label of that next
    entry.  A NaN gets the empty label from every table. *)
Theorem getTempDesc_interval (t : float64) (pre post : list (@td float64))
    (prev e : @td float64) :
  ascending (pre ++ prev :: e :: post) = true →
  t >=~ temp prev = true →
  t <~ temp e = true →
  getTempDesc t (pre ++ prev :: e :: post) = noun e
  ∧ ∀ temps, getTempDesc NaN temps = EmptyString.
Proof.
  intros A Lo Hi. split; [|exact getTempDesc_nan].
  change (pre ++ prev :: e :: post) with (pre ++ [prev] ++ e :: post).
  rewrite app_assoc, getTempDesc_skip, getTempDesc_cons, Hi; [reflexivity|].
  apply Forall_app_2.
  - eapply Forall_impl; [exact (ascending_before pre prev _ A)|].
    intros x Hx. apply OrderMore.ltb_asym.
    exact (OrderMore.ltb_leb_trans _ _ _ Hx Lo).
  - constructor; [|constructor]. exact (Order.leb_excludes_ltb _ _ Lo).
Qed.

Lemma getTempDesc_interval_witness :
  getTempDesc (Demo.num 19 2)
    (firstn 3 highTemperatures ++ {| temp := lit 8; noun := "a chilly" |}
       :: {| temp := lit 11; noun := "a cool" |} :: skipn 5 highTemperatures)
  = "a cool".
Proof.
  apply (getTempDesc_interval (Demo.num 19 2) (firstn 3 highTemperatures)
           (skipn 5 highTemperatures)
           {| temp := lit 8; noun := "a chilly" |} {| temp := lit 11; noun := "a cool" |});
    vm_compute; reflexivity.
Defined.

End Intervals.

Section MostRecent.
Import Weather IEEE Observe More.
Local Open Scope num_scope.

Lemma checkEvent_other (cfg : @Config float64) st ev :
  classify cfg ev = KOther → checkEvent cfg st ev = Ret (st, []).
Proof. intros K. unfold checkEvent. rewrite K. reflexivity. Qed.

Lemma handle_frame (cfg : @Config float64) st i st' out :
  handle cfg st i = Ret (st', out) →
  (not_of_kind cfg KRain i → lastRainTotal st' = lastRainTotal st)
  ∧ (not_of_kind cfg KTemp i →
     lastOutsideTemp st' = lastOutsideTemp st ∧ lastOutsideHumd st' = lastOutsideHumd st)
  ∧ (not_of_kind cfg KWind i → avgWind st' = avgWind st).
Proof.
  intros E. destruct i as [ev|gr].
  - pose proof (checkEvent_ret_inv cfg st ev st' out E) as I.
    change (handle cfg st (EventIn ev)) with (checkEvent cfg st ev) in E.
    unfold not_of_kind. destruct (classify cfg ev) eqn:K.
    + destruct I as [x Hr]. rewrite (checkEvent_rain cfg st ev x Hr) in E.
      apply Ret_pair_inj in E as [<- _]. repeat split; congruence.
    + destruct I as [x Hr]. rewrite (checkEvent_temp cfg st ev x Hr) in E.
      destruct (Fields ev !! "humidity") as [[humd|s|b]|];
        apply Ret_pair_inj in E as [<- _]; repeat split; congruence.
    + destruct I as [x Hr]. rewrite (checkEvent_wind cfg st ev x Hr) in E.
      apply Ret_pair_inj in E as [<- _]. repeat split; congruence.
    + destruct I as [-> _]. repeat split; reflexivity.
  - destruct (handle_tick_inv cfg st gr st' out E) as [-> _]. repeat split; reflexivity.
Qed.

Lemma Run_frame (cfg : @Config float64) st ys :
  (Forall (not_of_kind cfg KRain) ys →
   lastRainTotal (final (Run cfg st ys)) = lastRainTotal st)
  ∧ (Forall (not_of_kind cfg KTemp) ys →
     lastOutsideTemp (final (Run cfg st ys)) = lastOutsideTemp st).
Proof.
  revert st. induction ys as [|i ys IH]; intros st; [split; reflexivity|].
  destruct (handle cfg st i) as [[st' out]|msg] eqn:E.
  - rewrite (Run_cons_ret cfg st i ys st' out E). cbn [final].
    destruct (handle_frame cfg st i st' out E) as (R & T & _), (IH st') as [IR IT].
    split; intros F; inversion F; subst.
    + rewrite IR by assumption. apply R. assumption.
    + rewrite IT by assumption. apply T. assumption.
  - rewrite (Run_cons_panic cfg st i ys msg E). split; reflexivity.
Qed.

(** X14.  The stored rain total and the stored temperature are always
    the most recent readings: once the loop has reached a rain reading
    (a temperature reading), the variable holds its value after any
    further inputs that are not rain events (temperature events), ticks
    and panics included. *)
Theorem stored_value_is_latest_reading (cfg : @Config float64) (st : @State float64)
    (xs ys : list (@Input float64)) (ev : @Event float64) (x : float64) :
  crash (Run cfg st xs) = None →
  (reading_of cfg KRain "all_total" ev x →
   Forall (not_of_kind cfg KRain) ys →
   lastRainTotal (final (Run cfg st (xs ++ EventIn ev :: ys))) = x)
  ∧ (reading_of cfg KTemp "temp" ev x →
     Forall (not_of_kind cfg KTemp) ys →
     lastOutsideTemp (final (Run cfg st (xs ++ EventIn ev :: ys))) = x).
Proof.
  intros C. destruct (Run_append cfg st xs (EventIn ev :: ys)) as [A _].
  destruct (A C) as [_ ->]. cbn [final]. split; intros Hr F.
  - rewrite (Run_cons_ret cfg _ (EventIn ev) ys _ _ (checkEvent_rain cfg _ ev x Hr)).
    cbn [final]. rewrite (proj1 (Run_frame cfg _ ys) F). reflexivity.
  - pose proof (checkEvent_temp cfg (final (Run cfg st xs)) ev x Hr) as E.
    destruct (Fields ev !! "humidity") as [[humd|s|b]|];
      rewrite (Run_cons_ret cfg _ (EventIn ev) ys _ _ E); cbn [final];
      rewrite (proj2 (Run_frame cfg _ ys) F); reflexivity.
Qed.

Lemma stored_value_is_latest_reading_witness :
  lastRainTotal
    (final (Run (Demo.config (Demo.num 10 1)) initial
              ([EventIn (Demo.reading "rain" "all_total" (Demo.num 3 1))]
                 ++ EventIn (Demo.reading "rain" "all_total" (Demo.num 7 2))
                 :: [EventIn (Demo.reading "wind" "speed" (Demo.num 2 1));
                     TickIn Demo.empty_answer]))) = Demo.num 7 2.
Proof.
  apply (proj1 (stored_value_is_latest_reading (Demo.config (Demo.num 10 1)) initial
                  [EventIn (Demo.reading "rain" "all_total" (Demo.num 3 1))]
                  [EventIn (Demo.reading "wind" "speed" (Demo.num 2 1));
                   TickIn Demo.empty_answer]
                  (Demo.reading "rain" "all_total" (Demo.num 7 2)) (Demo.num 7 2) eq_refl)).
  - split; vm_compute; reflexivity.
  - constructor; [vm_compute; discriminate | constructor; [exact I | constructor]].
Defined.

End MostRecent.

Section Independence.
Import Weather IEEE Observe More.
Local Open Scope num_scope.

Ltac use_reading E :=
  match type of E with
  | checkEvent ?cfg ?st ?ev = _ =>
      match goal with
      | Hr : reading_of cfg KRain _ ev ?x |- _ => rewrite (checkEvent_rain cfg st ev x Hr) in E
      | Hr : reading_of cfg KTemp _ ev ?x |- _ => rewrite (checkEvent_temp cfg st ev x Hr) in E
      | Hr : reading_of cfg KWind _ ev ?x |- _ => rewrite (checkEvent_wind cfg st ev x Hr) in E
      | K : classify cfg ev = KOther |- _ => rewrite (checkEvent_other cfg st ev K) in E
      end
  end.

Ltac by_reading :=
  match goal with
  | |- checkEvent ?cfg ?st ?ev = _ =>
      match goal with
      | Hr : reading_of cfg KRain _ ev ?x |- _ => rewrite (checkEvent_rain cfg st ev x Hr)
      | Hr : reading_of cfg KTemp _ ev ?x |- _ => rewrite (checkEvent_temp cfg st ev x Hr)
      | Hr : reading_of cfg KWind _ ev ?x |- _ => rewrite (checkEvent_wind cfg st ev x Hr)
      | K : classify cfg ev = KOther |- _ => rewrite (checkEvent_other cfg st ev K)
      end
  end.

Lemma kind_reading (cfg : @Config float64) st ev st' out :
  checkEvent cfg st ev = Ret (st', out) →
  (∃ x, reading_of cfg KRain "all_total" ev x)
  ∨ (∃ x, reading_of cfg KTemp "temp" ev x)
  ∨ (∃ x, reading_of cfg KWind "speed" ev x)
  ∨ classify cfg ev = KOther.
Proof.
  intros E. pose proof (checkEvent_ret_inv cfg st ev st' out E) as I.
  destruct (classify cfg ev); auto.
Qed.

(** X15.  Events of different kinds do not interfere: if a rain, a
    temperature and a wind event (or an event of no known kind) are
    handled in one order, handling them in the other order sends the
    same alerts for each event and reaches the same state. *)
Theorem different_kinds_commute (cfg : @Config float64) (st s1 s12 : @State float64)
    (ev1 ev2 : @Event float64) (o1 o2 : list Alert) :
  classify cfg ev1 ≠ classify cfg ev2 →
  checkEvent cfg st ev1 = Ret (s1, o1) →
  checkEvent cfg s1 ev2 = Ret (s12, o2) →
  ∃ s2, checkEvent cfg st ev2 = Ret (s2, o2) ∧ checkEvent cfg s2 ev1 = Ret (s12, o1).
Proof.
  intros N E1 E2.
  destruct (kind_reading cfg st ev1 s1 o1 E1) as [[x1 H1]|[[x1 H1]|[[x1 H1]|H1]]];
    destruct (kind_reading cfg s1 ev2 s12 o2 E2) as [[x2 H2]|[[x2 H2]|[[x2 H2]|H2]]];
    try (exfalso; apply N;
         first [rewrite (proj1 H1), (proj1 H2) | rewrite H1, H2]; reflexivity);
    use_reading E1; destruct (Fields ev1 !! "humidity") as [[h1|?|?]|] eqn:F1;
    apply Ret_pair_inj in E1 as [<- <-];
    use_reading E2; destruct (Fields ev2 !! "humidity") as [[h2|?|?]|] eqn:F2;
    apply Ret_pair_inj in E2 as [<- <-];
    eexists; (split; [by_reading; rewrite ?F2; reflexivity|]);
    by_reading; rewrite ?F1; reflexivity.
Qed.

Lemma different_kinds_commute_witness :
  ∃ s2,
    checkEvent (Demo.config (Demo.num 1 1)) (Demo.seeded (Demo.num 5 1) (lit 0) (lit 0) (lit 0))
      (Demo.reading "wind" "speed" (Demo.num 50 1))
    = Ret (s2, [windAlert (Demo.num 5 4)])
    ∧ checkEvent (Demo.config (Demo.num 1 1)) s2
        (Demo.reading "rain" "all_total" (Demo.num 11 2))
      = Ret (Demo.seeded (Demo.num 11 2) (lit 0) (lit 0) (Demo.num 5 4),
             [rainAlert (Demo.reading "rain" "all_total" (Demo.num 11 2))]).
Proof.
  apply (different_kinds_commute (Demo.config (Demo.num 1 1))
           (Demo.seeded (Demo.num 5 1) (lit 0) (lit 0) (lit 0))
           (Demo.seeded (Demo.num 11 2) (lit 0) (lit 0) (lit 0))).
  - vm_compute. discriminate.
  - vm_compute. reflexivity.
  - vm_compute. reflexivity.
Defined.

End Independence.

Section HumidityGap.
Import Weather IEEE Observe More.
Local Open Scope num_scope.

(** X16.  A temperature reading that carries no humidity number disarms
    the humidity alert: neither it nor the temperature reading handled
    right after it sends a humidity alert, even when the humidity stored
    before was below 96 and the new one is above. *)
Theorem missing_humidity_disarms_alert (cfg : @Config float64) (st : @State float64)
    (ev1 ev2 : @Event float64) (t1 t2 : float64) :
  reading_of cfg KTemp "temp" ev1 t1 →
  reading_of cfg KTemp "temp" ev2 t2 →
  (∀ h, Fields ev1 !! "humidity" ≠ Some (VFloat h)) →
  crash (Run cfg st [EventIn ev1; EventIn ev2]) = None
  ∧ alerts_on "humidity" (sent (Run cfg st [EventIn ev1; EventIn ev2])) = 0%nat.
Proof.
  intros H1 H2 NoH.
  pose proof (checkEvent_temp cfg st ev1 t1 H1) as E1.
  destruct (Fields ev1 !! "humidity") as [[h|s|b]|] eqn:F1;
    [destruct (NoH h eq_refl)| | |];
    rewrite (Run_cons_ret cfg st (EventIn ev1) _ _ _ E1);
    match goal with
    | |- context [Run cfg ?s1 [EventIn ev2]] =>
        pose proof (checkEvent_temp cfg s1 ev2 t2 H2) as E2;
        destruct (Fields ev2 !! "humidity") as [[h2|s2|b2]|];
        rewrite (Run_cons_ret cfg s1 (EventIn ev2) _ _ _ E2)
    end;
    cbn [crash sent Run]; (split; [reflexivity|]);
    rewrite ?alerts_on_app, ?humidity_fires_unseeded by reflexivity;
    rewrite !alerts_on_pick_other by discriminate; reflexivity.
Qed.

Lemma missing_humidity_disarms_alert_witness :
  alerts_on "humidity"
    (sent (Run (Demo.config (Demo.num 10 1))
             (Demo.seeded (lit 0) (lit 12) (Demo.num 90 1) (lit 0))
             [EventIn (Demo.reading "temp" "temp" (lit 12));
              EventIn {| Topic := "temp";
                         Fields := {[ "temp" := VFloat (lit 12);
                                      "humidity" := VFloat (Demo.num 97 1) ]} |}])) = 0%nat.
Proof.
  apply (missing_humidity_disarms_alert (Demo.config (Demo.num 10 1))
           (Demo.seeded (lit 0) (lit 12) (Demo.num 90 1) (lit 0))
           (Demo.reading "temp" "temp" (lit 12)) _ (lit 12) (lit 12));
    [split; vm_compute; reflexivity | split; vm_compute; reflexivity|].
  intros h. vm_compute. discriminate.
Defined.

End HumidityGap.

Section HotDays.
Import Weather IEEE Observe More.
Local Open Scope num_scope.

Lemma above_all (t top : float64) (temps : list (@td float64)) :
  t >=~ top = true →
  Forall (fun e => temp e <~ top = true ∨ temp e = top) temps →
  getTempDesc t temps = EmptyString.
Proof.
  intros Lo. induction 1 as [|e rest He _ IH]; [reflexivity|].
  rewrite getTempDesc_cons.
  assert (L : (t <~ temp e) = false).
  { destruct He as [He | ->]; [|exact (Order.leb_excludes_ltb _ _ Lo)].
    apply OrderMore.ltb_asym. exact (OrderMore.ltb_leb_trans _ _ _ He Lo). }
  rewrite L. exact IH.
Qed.

(** X17.  The built-in tables have no entry for hot values: a maximum of
    36 or more, and a minimum of 25 or more, get the empty description,
    and the digest then reads [up to] and [down to] followed by two
    spaces and the number. *)
Theorem hot_values_have_no_description (h l : float64) :
  (h >=~ lit 36 = true → getTempDesc h highTemperatures = EmptyString)
  ∧ (l >=~ lit 25 = true → getTempDesc l lowTemperatures = EmptyString)
  ∧ digestMessage EmptyString h EmptyString l
    = "Weather: Outside it got up to  " +:+ f_fmt 1 h +:+ "°C and went down to  "
        +:+ f_fmt 1 l +:+ "°C in the last 24 hours.".
Proof.
  split; [|split; [|reflexivity]]; intros Lo; apply (above_all _ _ _ Lo);
    unfold highTemperatures, lowTemperatures;
    repeat (constructor; [first [left; vm_compute; reflexivity | right; reflexivity]|]);
    constructor.
Qed.

Lemma hot_values_have_no_description_witness :
  getTempDesc (Demo.num 75 2) highTemperatures = EmptyString
  ∧ getTempDesc (Demo.num 51 2) lowTemperatures = EmptyString.
Proof.
  destruct (hot_values_have_no_description (Demo.num 75 2) (Demo.num 51 2)) as (H & L & _).
  split; [apply H | apply L]; vm_compute; reflexivity.
Defined.

End HotDays.
